(** * DQXServer: the multi-category density filter-bank convertor

    A shallow embedding of
    [Convertors/_CreateMultiCategoryDensityFilterBankData.py]: the start-up
    scan of the category list, the classes [Level] and [Summariser], and the
    main loop that feeds the records of the data file to one [Summariser]
    per chromosome.

    Python integers are unbounded, so positions, block sizes and counts are
    [Z].  The files under [./Summaries] live in a store that maps a path to
    the chunks written to it so far, one chunk per [write] call.  The two
    [while] loops of [Summariser] have no bound in the source; they run here
    on a budget of iterations and answer [OutOfFuel] when it is used up. *)

From Stdlib Require Import Ascii.
From stdpp Require Import base gmap list strings pretty sorting.

Open Scope Z_scope.

(** ** Exceptions *)

(** [Exception msg] is [raise Exception(msg)]; the others are the built-in
    exceptions the interpreter raises by itself. *)
Inductive exn :=
| TypeError
| IndexError
| ValueError
| AttributeError
| Exception (msg : string).

(** ** File objects *)

(** The object returned by [open(path, 'w')]. *)
Record file := File { name : string; closed : bool }.

Definition close (f : file) : file := File (name f) true.

(** ** The two classes *)

Record Level := MkLevel {
  blocksize : Z;
  currentblockend : Z;
  catcounts : list Z;
  outputfile : file
}.

Record Summariser := MkSummariser {
  chromosome : string;
  outputFolder : string;
  lastpos : Z;
  blockSizeStart : Z;
  blockSizeIncrFactor : Z;
  blockSizeMax : Z;
  levels : list Level
}.

Definition set_levels (ls : list Level) (self : Summariser) : Summariser :=
  MkSummariser (chromosome self) (outputFolder self) (lastpos self)
    (blockSizeStart self) (blockSizeIncrFactor self) (blockSizeMax self) ls.

(** A line of the data file, split at the tabs:
    [(comps[0], int(comps[1]), comps[2])]. *)
Definition record : Type := string * Z * string.

(** The variables of the main loop. *)
Record Driver := MkDriver {
  currentChromosome : string;
  summariser : option Summariser;
  processedChromosomes : gmap string bool;
  linecount : Z
}.

(** The argument of [range]: an integer, or (as the start-up scan passes it)
    a list of strings. *)
Inductive pyval :=
| PyInt (n : Z)
| PyList (l : list string).

Definition basedir : string := ".".
(** [os.path.join(basedir, 'Summaries')] *)
Definition outputdir : string := basedir +:+ "/Summaries".

Section Encoder.

(** [DQXEncoder] is not part of the sources at hand: the encoder returned
    by [DQXEncoder.GetEncoder] is a parameter, [perform] its method. *)
Context {encoded : Type} (perform : list Z → encoded).

(** ** The monad of the script: a file store, exceptions, fuel *)

Inductive outcome (A : Type) :=
| Ok (a : A) (w : gmap string (list encoded))
| Raise (e : exn) (w : gmap string (list encoded))
| OutOfFuel.
Global Arguments Ok {A} a w.
Global Arguments Raise {A} e w.
Global Arguments OutOfFuel {A}.

Definition M (A : Type) : Type := gmap string (list encoded) → outcome A.

Definition ret {A} (a : A) : M A := λ w, Ok a w.

Definition bind {A B} (m : M A) (k : A → M B) : M B :=
  λ w, match m w with
       | Ok a w' => k a w'
       | Raise e w' => Raise e w'
       | OutOfFuel => OutOfFuel
       end.

Definition raise {A} (e : exn) : M A := λ w, Raise e w.

Definition out_of_fuel {A} : M A := λ _, OutOfFuel.

Notation "'let!' x ':=' m 'in' k" := (bind m (λ x, k))
  (at level 10, x name, m at level 100, k at level 200, only parsing).

(** [for x in l: x = f(x)], on a list of objects that [f] updates in place *)
Fixpoint for_each {A B} (f : A → M B) (l : list A) : M (list B) :=
  match l with
  | [] => ret []
  | x :: l' => let! y := f x in let! ys := for_each f l' in ret (y :: ys)
  end.

(** [for x in l: acc = f(acc, x)] *)
Fixpoint for_fold {A St} (f : St → A → M St) (l : list A) (acc : St)
    : M St :=
  match l with
  | [] => ret acc
  | x :: l' => let! acc' := f acc x in for_fold f l' acc'
  end.

(** [open(path, 'w')]: the file is created or truncated. *)
Definition py_open (path : string) : M file :=
  λ w, Ok (File path false) (<[path := []]> w).

(** [f.write(data)] *)
Definition write (f : file) (data : encoded) : M unit :=
  λ w, if closed f then Raise ValueError w
       else Ok tt (<[name f := default [] (w !! name f) ++ [data]]> w).

(** [range(x)] *)
Definition py_range (x : pyval) : M (list nat) :=
  match x with
  | PyInt n => ret (seq 0 (Z.to_nat n))
  | PyList _ => raise TypeError
  end.

(** ** Start-up: lines 28-34 *)

(** [{categories[i]:i for i in range(len(categories))}]: a label that
    occurs twice keeps its last index. *)
Definition categorymap_of (categories : list string) : gmap string nat :=
  foldl (λ m ic, <[ic.2 := ic.1]> m) ∅ (imap (λ i c, (i, c)) categories).

(** [otherCategoryNr = None; for i in range(categories): ...] *)
Definition scan_otherCategoryNr (categories : list string) : M (option nat) :=
  let! idx := py_range (PyList categories) in
  for_fold (λ other i,
              match categories !! i with
              | Some c => ret (if decide (c = "_other_") then Some i else other)
              | None => raise IndexError
              end) idx None.

Section Globals.

(** The globals the methods of [Summariser] read. *)
Variable categories : list string.
Variable otherCategoryNr : option nat.

Definition categorymap : gmap string nat := categorymap_of categories.

(** ** class Summariser *)

(** The [while] loop of [__init__]; [blocksize_] is its local variable
    [blocksize], [acc] is [self.levels]. *)
Fixpoint build_levels (fuel : nat) (chrom folder : string) (factor maxsize : Z)
    (blocksize_ : Z) (acc : list Level) : M (list Level) :=
  match fuel with
  | O => out_of_fuel
  | S fuel' =>
      if blocksize_ <=? maxsize then
        let! f := py_open (folder +:+ "/Summ_" +:+ chrom +:+ "_" +:+ pretty blocksize_) in
        let level := MkLevel blocksize_ blocksize_
                       (replicate (length categories) 0) f in
        build_levels fuel' chrom folder factor maxsize
          (blocksize_ * factor) (acc ++ [level])
      else ret acc
  end.

(** [Summariser.__init__] *)
Definition init (fuel : nat) (chrom : string) (start factor maxsize : Z)
    (folder : string) : M Summariser :=
  let! ls := build_levels fuel chrom folder factor maxsize start [] in
  ret (MkSummariser chrom folder (-1) start factor maxsize ls).

Definition CloseCurrentBlock (level : Level) : M unit :=
  write (outputfile level) (perform (catcounts level)).

Definition StartNextBlock (level : Level) : Level :=
  MkLevel (blocksize level) (currentblockend level + blocksize level)
    (replicate (length categories) 0) (outputfile level).

(** [while pos >= level.currentblockend: ...] *)
Fixpoint close_blocks (fuel : nat) (pos : Z) (level : Level) : M Level :=
  match fuel with
  | O => out_of_fuel
  | S fuel' =>
      if pos >=? currentblockend level then
        let! _ := CloseCurrentBlock level in
        close_blocks fuel' pos (StartNextBlock level)
      else ret level
  end.

(** [level.catcounts[k] += 1] *)
Definition increment (k : nat) (level : Level) : M Level :=
  match catcounts level !! k with
  | Some c => ret (MkLevel (blocksize level) (currentblockend level)
                     (<[k := c + 1]> (catcounts level)) (outputfile level))
  | None => raise IndexError
  end.

(** The body of the [for] loop of [Add]. *)
Definition Add_level (fuel : nat) (pos : Z) (val : string) (level : Level)
    : M Level :=
  let! level := close_blocks fuel pos level in
  match categorymap !! val with
  | Some k => increment k level
  | None =>
      match otherCategoryNr with
      | Some k => increment k level
      | None => ret level
      end
  end.

Definition Add (fuel : nat) (pos : Z) (val : string) (self : Summariser)
    : M Summariser :=
  if pos <=? lastpos self then
    raise (Exception "Positions should be strictly ordered")
  else
    let! ls := for_each (Add_level fuel pos val) (levels self) in
    ret (set_levels ls self).

Definition Finalise_level (level : Level) : M Level :=
  let! _ := CloseCurrentBlock level in
  ret (MkLevel (blocksize level) (currentblockend level) (catcounts level)
         (close (outputfile level))).

Definition Finalise (self : Summariser) : M Summariser :=
  let! ls := for_each Finalise_level (levels self) in
  ret (set_levels ls self).

(** ** The main loop: lines 145-178 *)

Section Driver.

(** The block sizes read from the command line. *)
Variables start factor maxsize : Z.

Definition driver0 : Driver := MkDriver "" None ∅ 0.

(** The body of [if chromosome != currentChromosome:]. *)
Definition switch_chromosome (fuel : nat) (chrom : string) (d : Driver)
    : M Driver :=
  let! _ := match summariser d with
            | Some s => let! _ := Finalise s in ret tt
            | None => ret tt
            end in
  let! s := init fuel chrom start factor maxsize outputdir in
  if decide (is_Some (processedChromosomes d !! chrom)) then
    raise (Exception "File should be ordered by chromosome")
  else
    ret (MkDriver chrom (Some s) (<[chrom := true]> (processedChromosomes d))
           (linecount d)).

(** One turn of [while True], for a line that is not empty. *)
Definition step (fuel : nat) (d : Driver) (line : record) : M Driver :=
  let '(chrom, pos, val) := line in
  let d := MkDriver (currentChromosome d) (summariser d)
             (processedChromosomes d) (linecount d + 1) in
  let! d := (if decide (chrom = currentChromosome d) then ret d
             else switch_chromosome fuel chrom d) in
  match summariser d with
  | Some s =>
      let! s' := Add fuel pos val s in
      ret (MkDriver (currentChromosome d) (Some s')
             (processedChromosomes d) (linecount d))
  | None => raise AttributeError
  end.

(** The loop over the lines up to the first empty one. *)
Definition main_loop (fuel : nat) (lines : list record) (d : Driver) : M Driver :=
  for_fold (step fuel) lines d.

(** The loop, then [if summariser != None: summariser.Finalise()]. *)
Definition driver (fuel : nat) (lines : list record) : M Driver :=
  let! d := main_loop fuel lines driver0 in
  match summariser d with
  | Some s =>
      let! s' := Finalise s in
      ret (MkDriver (currentChromosome d) (Some s')
             (processedChromosomes d) (linecount d))
  | None => ret d
  end.

End Driver.

(** One chromosome on its own: construction, the records in order, then
    [Finalise]. *)
Definition run_chromosome (fuel : nat) (chrom : string)
    (start factor maxsize : Z) (folder : string) (recs : list (Z * string))
    : M Summariser :=
  let! s := init fuel chrom start factor maxsize folder in
  let! s := for_fold (λ s r, Add fuel r.1 r.2 s) recs s in
  Finalise s.

End Globals.

(** ** The script *)

(** Lines 107-109: every file [Summ_*] of the output directory is removed. *)
Definition remove_summaries : M unit :=
  λ w, Ok tt (filter (λ kv, String.prefix (outputdir +:+ "/Summ_") kv.1 = false) w).

(** The script from line 28 on, for the block sizes and the category list
    of the command line and the lines of the data file.  [Summ.cnf] is
    written next to the data file and is left out. *)
Definition script (fuel : nat) (start factor maxsize : Z)
    (categories : list string) (lines : list record) : M unit :=
  let! other := scan_otherCategoryNr categories in
  let! _ := remove_summaries in
  let! _ := driver categories other start factor maxsize fuel lines in
  ret tt.

(** ** Vocabulary of the statements *)

(** The index [Add] increments for a value: its own, else the catch-all. *)
Definition resolve (categories : list string) (otherCategoryNr : option nat)
    (val : string) : option nat :=
  match categorymap categories !! val with
  | Some k => Some k
  | None => otherCategoryNr
  end.

(** A count vector after one more record at index [o]. *)
Definition bump (o : option nat) (counts : list Z) : list Z :=
  match o with
  | Some k =>
      match counts !! k with
      | Some c => <[k := c + 1]> counts
      | None => counts
      end
  | None => counts
  end.

(** Block [i] of width [bs] is the half-open range from [bs * i]. *)
Definition in_block (bs : Z) (i : nat) (pos : Z) : bool :=
  (bs * Z.of_nat i <=? pos) && (pos <? bs * (Z.of_nat i + 1)).

(** The count vector of the records that fall in block [i]. *)
Definition block_counts (categories : list string)
    (otherCategoryNr : option nat) (bs : Z) (i : nat)
    (recs : list (Z * string)) : list Z :=
  foldl (λ c r, if in_block bs i r.1
                then bump (resolve categories otherCategoryNr r.2) c else c)
    (replicate (length categories) 0) recs.

Definition sum_counts (counts : list Z) : Z := foldr Z.add 0 counts.

Definition sum_blocks (blocks : list (list Z)) : Z :=
  foldr (λ b acc, sum_counts b + acc) 0 blocks.

(** [b], [b * factor], [b * factor^2], ...: [n] terms. *)
Fixpoint geometric (factor : Z) (n : nat) (b : Z) : list Z :=
  match n with
  | O => []
  | S n' => b :: geometric factor n' (b * factor)
  end.

(** The path of the file of a level. *)
Definition level_path (folder chrom : string) (bs : Z) : string :=
  folder +:+ "/Summ_" +:+ chrom +:+ "_" +:+ pretty bs.

(** The level [__init__] appends for block size [bs]. *)
Definition fresh_level (categories : list string) (folder chrom : string)
    (bs : Z) : Level :=
  MkLevel bs bs (replicate (length categories) 0)
    (File (level_path folder chrom bs) false).

(** How many blocks the [while] loop of [Add] closes for [pos]. *)
Definition blocks_due (pos : Z) (level : Level) : nat :=
  if pos <? currentblockend level then O
  else S (Z.to_nat ((pos - currentblockend level) / blocksize level)).

Definition ceil_div (a b : Z) : Z := (a + b - 1) / b.

(** A count vector of the right length without negative entries. *)
Definition counts_ok (categories : list string) (counts : list Z) : Prop :=
  length counts = length categories ∧ Forall (λ x, 0 ≤ x) counts.

(** The file holds encoded count vectors, and so will the next block. *)
Definition well_shaped (categories : list string) (l : Level)
    (c : list encoded) : Prop :=
  counts_ok categories (catcounts l)
  ∧ ∃ blocks, c = perform <$> blocks ∧ Forall (counts_ok categories) blocks.

(** The encoder that hands the count vector on as it is. *)
Definition plain : list Z → list Z := id.

(** The level after [n] turns of that loop, and the chunks written. *)
Fixpoint close_n (categories : list string) (n : nat) (level : Level)
    : Level :=
  match n with
  | O => level
  | S n' => close_n categories n' (StartNextBlock categories level)
  end.

Fixpoint chunks_n (categories : list string) (n : nat) (level : Level)
    : list encoded :=
  match n with
  | O => []
  | S n' => perform (catcounts level)
            :: chunks_n categories n' (StartNextBlock categories level)
  end.

Definition append_chunks (path : string) (chunks : list encoded)
    (w : gmap string (list encoded)) : gmap string (list encoded) :=
  match chunks with
  | [] => w
  | _ => <[path := default [] (w !! path) ++ chunks]> w
  end.

Definition bump_level (o : option nat) (level : Level) : Level :=
  MkLevel (blocksize level) (currentblockend level)
    (bump o (catcounts level)) (outputfile level).

Definition path_of (level : Level) : string := name (outputfile level).

(** What holds of every level between two calls of [Add]. *)
Definition level_ok (categories : list string) (level : Level) : Prop :=
  0 < blocksize level
  ∧ blocksize level ≤ currentblockend level
  ∧ closed (outputfile level) = false
  ∧ length (catcounts level) = length categories.

(** The levels of a pyramid write to files of their own, are in order, and
    [P] holds of each with the content of its file. *)
Definition pyramid_inv (categories : list string)
    (P : Level → list encoded → Prop) (s : Summariser)
    (w : gmap string (list encoded)) : Prop :=
  NoDup (path_of <$> levels s)
  ∧ Forall (λ l, level_ok categories l
                 ∧ ∃ c, w !! path_of l = Some c ∧ P l c) (levels s).

(** A level as [__init__] leaves it, its file empty. *)
Definition fresh (categories : list string) (l : Level)
    (c : list encoded) : Prop :=
  c = [] ∧ currentblockend l = blocksize l
  ∧ catcounts l = replicate (length categories) 0.

(** The level [Finalise] leaves behind. *)
Definition finalised (l : Level) : Level :=
  MkLevel (blocksize l) (currentblockend l) (catcounts l)
    (close (outputfile l)).

(** The blocks in the file and the counts in hand add up to the number of
    records. *)
Definition conserved (recs : list (Z * string)) (l : Level)
    (c : list encoded) : Prop :=
  ∃ blocks, c = perform <$> blocks
            ∧ sum_blocks blocks + sum_counts (catcounts l)
              = Z.of_nat (length recs).

(** The file holds the blocks before block [b], each with the counts of
    its records, the counts in hand are those of block [b], and block [b] is
    the block of the last record. *)
Definition cadence (categories : list string) (other : option nat)
    (recs : list (Z * string)) (l : Level) (c : list encoded) : Prop :=
  ∃ b : nat,
    currentblockend l = blocksize l * (Z.of_nat b + 1)
    ∧ c = (λ i, perform (block_counts categories other (blocksize l) i recs))
          <$> seq 0 b
    ∧ catcounts l = block_counts categories other (blocksize l) b recs
    ∧ Forall (λ r, r.1 < currentblockend l) recs
    ∧ match last recs with
      | Some r => blocksize l * Z.of_nat b ≤ r.1
      | None => b = O
      end.

(** The chromosome of a line. *)
Definition label (line : record) : string := line.1.1.

(** The state of the main loop after the lines [pre]: the chromosomes seen
    are on record, and the pyramid of the last line is the active one, its
    files open. *)
Definition driver_inv (categories : list string) (fuel : nat)
    (start factor maxsize : Z) (pre : list record) (d : Driver) : Prop :=
  (∀ c, is_Some (processedChromosomes d !! c) ↔ c ∈ label <$> pre)
  ∧ match last pre with
    | None => d = driver0
    | Some r =>
        currentChromosome d = label r
        ∧ ∃ s, summariser d = Some s
               ∧ chromosome s = label r
               ∧ Forall (λ l, closed (outputfile l) = false) (levels s)
               ∧ ∃ w ls w',
                   build_levels categories fuel (label r) outputdir factor
                     maxsize start [] w = Ok ls w'
    end.

(** Whether a character occurs in a string. *)
Fixpoint occurs (a : ascii) (s : string) : bool :=
  match s with
  | EmptyString => false
  | String b s' => Ascii.eqb a b || occurs a s'
  end.

(** The catch-all index, when there is one, is an index of the list. *)
Definition other_ok (categories : list string) (otherCategoryNr : option nat)
    : Prop :=
  ∀ k, otherCategoryNr = Some k → (k < length categories)%nat.

(** The block sizes [__init__] goes through on a budget of [fuel] turns. *)
Fixpoint sizes_upto (fuel : nat) (factor maxsize bs : Z) : list Z :=
  match fuel with
  | O => []
  | S fuel' =>
      if bs <=? maxsize then bs :: sizes_upto fuel' factor maxsize (bs * factor)
      else []
  end.

(** One level taken alone through the records of its chromosome: the level
    at the end and the chunks written on the way. *)
Definition level_after (categories : list string) (other : option nat)
    (recs : list (Z * string)) (l0 : Level) : Level * list encoded :=
  foldl (λ lc r,
           (bump_level (resolve categories other r.2)
              (close_n categories (blocks_due r.1 lc.1) lc.1),
            lc.2 ++ chunks_n categories (blocks_due r.1 lc.1) lc.1))
    (l0, []) recs.

(** The file of that level once it is finalised. *)
Definition level_output (categories : list string) (other : option nat)
    (folder chrom : string) (bs : Z) (recs : list (Z * string))
    : list encoded :=
  let lc := level_after categories other recs
              (fresh_level categories folder chrom bs) in
  lc.2 ++ [perform (catcounts lc.1)].

(** A chromosome with its records, and the lines it makes in the file. *)
Definition lines_of (g : string * list (Z * string)) : list record :=
  (λ r, (g.1, r.1, r.2)) <$> g.2.

(** A level and its file are where [level_after] says. *)
Definition traced (categories : list string) (other : option nat)
    (folder chrom : string) (recs : list (Z * string)) (l : Level)
    (c : list encoded) : Prop :=
  level_after categories other recs
    (fresh_level categories folder chrom (blocksize l)) = (l, c).

(** The pyramid of [g] is the active one. *)
Definition active (categories : list string) (other : option nat)
    (sizes : list Z) (g : string * list (Z * string)) (d : Driver)
    (w : gmap string (list encoded)) : Prop :=
  currentChromosome d = g.1
  ∧ ∃ s, summariser d = Some s
         ∧ pyramid_inv categories (traced categories other outputdir g.1 g.2)
             s w
         ∧ blocksize <$> levels s = sizes.

(** The files of [g] are complete. *)
Definition finished (categories : list string) (other : option nat)
    (sizes : list Z) (w : gmap string (list encoded))
    (g : string * list (Z * string)) : Prop :=
  ∀ b, b ∈ sizes →
    w !! level_path outputdir g.1 b
    = Some (level_output categories other outputdir g.1 b g.2).

(** The main loop after the chromosomes [hist]. *)
Definition groups_inv (categories : list string) (other : option nat)
    (sizes : list Z) (hist : list (string * list (Z * string))) (d : Driver)
    (w : gmap string (list encoded)) : Prop :=
  (∀ c, is_Some (processedChromosomes d !! c) ↔ c ∈ hist.*1)
  ∧ (hist = [] → d = driver0)
  ∧ ∀ earlier g, hist = earlier ++ [g] →
      active categories other sizes g d w
      ∧ Forall (finished categories other sizes w) earlier.

End Encoder.

(** * DQXDbTools.py *)

(** ** Strings *)

(** [st.replace(it, "")] for an [it] of one character *)
Fixpoint remove_char (it : ascii) (st : string) : string :=
  match st with
  | EmptyString => EmptyString
  | String a st' =>
      if Ascii.eqb a it then remove_char it st'
      else String a (remove_char it st')
  end.

(** The double quote, then ['], [;], [(], [)] and the backtick. *)
Definition removelist : list ascii :=
  [ascii_of_nat 34; "'"; ";"; "("; ")"; "`"]%char.

(** [ToSafeIdentifier], on a string ([str(st)] is then [st]). *)
Definition ToSafeIdentifier (st : string) : string :=
  foldl (λ st it, remove_char it st) st removelist.

Definition DBCOLESC (arg : string) : string :=
  "`" +:+ ToSafeIdentifier arg +:+ "`".

Definition DBTBESC (arg : string) : string :=
  "`" +:+ ToSafeIdentifier arg +:+ "`".

Definition DBDBESC (arg : string) : string :=
  "`" +:+ ToSafeIdentifier arg +:+ "`".

(** [s.split(sep)] for a [sep] of one character *)
Fixpoint py_split (sep : ascii) (s : string) : list string :=
  match s with
  | EmptyString => [EmptyString]
  | String a s' =>
      if Ascii.eqb a sep then EmptyString :: py_split sep s'
      else match py_split sep s' with
           | h :: t => String a h :: t
           | [] => [String a EmptyString]
           end
  end.

(** [sep.join(l)] *)
Fixpoint py_join (sep : string) (l : list string) : string :=
  match l with
  | [] => EmptyString
  | x :: l' =>
      match l' with
      | [] => x
      | _ :: _ => x +:+ sep +:+ py_join sep l'
      end
  end.

(** [s[:n]] and [s[n:]] *)
Fixpoint slice_to (n : nat) (s : string) : string :=
  match n, s with
  | S n', String a s' => String a (slice_to n' s')
  | _, _ => EmptyString
  end.

Fixpoint slice_from (n : nat) (s : string) : string :=
  match n, s with
  | S n', String _ s' => slice_from n' s'
  | _, _ => s
  end.

(** [s.lstrip(chars)], [s.rstrip(chars)] and [s.strip(chars)] *)
Fixpoint py_lstrip (chars : list ascii) (s : string) : string :=
  match s with
  | EmptyString => EmptyString
  | String a s' =>
      if existsb (Ascii.eqb a) chars then py_lstrip chars s' else s
  end.

Fixpoint py_rstrip (chars : list ascii) (s : string) : string :=
  match s with
  | EmptyString => EmptyString
  | String a s' =>
      match py_rstrip chars s' with
      | EmptyString =>
          if existsb (Ascii.eqb a) chars then EmptyString
          else String a EmptyString
      | r => String a r
      end
  end.

Definition py_strip (chars : list ascii) (s : string) : string :=
  py_rstrip chars (py_lstrip chars s).

(** The dictionaries [ParseColumnEncoding] returns. *)
Record column := MkColumn { Encoding : string; Name : string }.

Definition ParseColumnEncoding (columnstr : string) : list column :=
  (λ colstr, MkColumn (slice_to 2 colstr)
               (ToSafeIdentifier (slice_from 2 colstr)))
  <$> py_split "~" columnstr.

Definition CreateOrderByStatement (orderstr : string) (reverse : bool)
    : string :=
  if (String.length orderstr =? 0)%nat || String.eqb orderstr "null"
  then "NULL"
  else
    let dirstr := if reverse then " DESC" else "" in
    py_join ", " ((λ field, DBCOLESC field +:+ dirstr)
                  <$> py_split "~" orderstr).

(** The characters of [s] that pass [keep], in their order. *)
Fixpoint keep_chars (keep : ascii → bool) (s : string) : string :=
  match s with
  | EmptyString => EmptyString
  | String a s' =>
      if keep a then String a (keep_chars keep s') else keep_chars keep s'
  end.

(** Whether [ToSafeIdentifier] lets a character through. *)
Definition safe_char (a : ascii) : bool :=
  negb (existsb (Ascii.eqb a) removelist).

(** How often a character occurs in a string. *)
Fixpoint count_char (a : ascii) (s : string) : nat :=
  match s with
  | EmptyString => O
  | String b s' => (if Ascii.eqb b a then 1 else 0) + count_char a s'
  end.

(** ** Operations and credentials *)

Section Config.

(** The module [config] is not part of the sources at hand: its attribute
    [DB] is a parameter. *)
Variable config_DB : string.

(** [DbOperationType.read] and [DbOperationType.write] *)
Definition read : Z := 1.
Definition write_ : Z := 2.

Record DbOperation := MkDbOperation {
  operationType : Z;
  databaseName : string;
  tableName : option string;
  columnName : option string
}.

(** [DbOperation.__init__]; [None] is the argument [None]. *)
Definition DbOperation_init (opType : Z) (database : option string)
    (table column : option string) : DbOperation :=
  let database :=
    match database with
    | None => config_DB
    | Some db => if String.eqb db "" then config_DB else db
    end in
  MkDbOperation opType database table column.

Definition DbOperationRead (database : option string)
    (table column : option string) : DbOperation :=
  DbOperation_init read database table column.

Definition DbOperationWrite (database : option string)
    (table column : option string) : DbOperation :=
  DbOperation_init write_ database table column.

Definition IsModify (self : DbOperation) : bool :=
  operationType self =? write_.

(** [DbOperation.__str__] *)
Definition DbOperation_str (self : DbOperation) : string :=
  let st := "" in
  let st := if operationType self =? read then st +:+ "Read" else st in
  let st := if operationType self =? write_ then st +:+ "Write" else st in
  let st := st +:+ ":" in
  let st := st +:+ databaseName self in
  let st := match tableName self with
            | Some t => st +:+ ":" +:+ t
            | None => st
            end in
  match columnName self with
  | Some c => st +:+ ":" +:+ c
  | None => st
  end.

Record DbAuthorization := MkDbAuthorization {
  granted : bool;
  reason : string
}.

(** [DbAuthorization.__init__] *)
Definition DbAuthorization_init (granted_ : bool) (reason_ : option string)
    : DbAuthorization :=
  MkDbAuthorization granted_
    match reason_ with
    | Some r => r
    | None =>
        if negb granted_
        then "Insufficient privileges to perform this action."
        else ""
    end.

Definition IsGranted (self : DbAuthorization) : bool := granted self.

Record CredentialInformation := MkCredentialInformation {
  clientaddress : option string;
  userid : string;
  groupids : list string
}.

(** [CredentialInformation.__init__] *)
Definition CredentialInformation_init : CredentialInformation :=
  MkCredentialInformation None "anonymous" [].

(** What the functions of this module raise. *)
Inductive db_exn :=
| DbException (msg : string)
| CredentialDatabaseException (msg : string)
| DbIndexError
| DbTypeError.

(** The line feed. *)
Definition LF : string := String (ascii_of_nat 10) EmptyString.

Section Verifier.

(** The global [DbCredentialVerifier]: [None], or a function the
    application has put there. *)
Variable DbCredentialVerifier :
  option (CredentialInformation → DbOperation → DbAuthorization).

Definition CanDo (self : CredentialInformation) (operation : DbOperation)
    : bool :=
  match DbCredentialVerifier with
  | Some verifier => IsGranted (verifier self operation)
  | None => true
  end.

Definition VerifyCanDo (self : CredentialInformation)
    (operation : DbOperation) : db_exn + unit :=
  match DbCredentialVerifier with
  | Some verifier =>
      let auth := verifier self operation in
      if negb (IsGranted auth) then
        inl (CredentialDatabaseException
               (reason auth +:+ " " +:+ LF +:+ LF +:+ "["
                +:+ DbOperation_str operation +:+ "]"))
      else inr tt
  | None => inr tt
  end.

End Verifier.

(** [GetAuthenticationInfo]: [+] on a [clientaddress] that is still [None]
    is a [TypeError]. *)
Definition GetAuthenticationInfo (self : CredentialInformation)
    : db_exn + string :=
  match clientaddress self with
  | Some address =>
      inr ("USER=" +:+ userid self +:+ ";CLIENTADDRESS=" +:+ address
           +:+ ";GROUPS=" +:+ py_join "," (groupids self))
  | None => inl DbTypeError
  end.

(** The request data, as far as [ParseFromReturnData] looks at them: the
    truth value under ['isRunningLocal'] and the dictionary under
    ['environ'], each [None] when the key is absent. *)
Record requestData := MkRequestData {
  isRunningLocal : option bool;
  environ : option (gmap string string)
}.

(** The inner loop of [ParseFromReturnData]: the tokens of one group. *)
Fixpoint parse_tokens (tokens : list string) (groupPath : list string)
    : db_exn + list string :=
  match tokens with
  | [] => inr groupPath
  | tokenStr :: tokens' =>
      let tokenStr := py_strip [" "%char] tokenStr in
      match py_split "=" tokenStr with
      | tokenid :: tokencontent :: _ =>
          if String.eqb tokenid "cn" || String.eqb tokenid "ou"
             || String.eqb tokenid "dc"
          then parse_tokens tokens' (groupPath ++ [tokencontent])
          else parse_tokens tokens' groupPath
      | _ => inl DbIndexError
      end
  end.

(** The outer loop: the groups of the header. *)
Fixpoint parse_groups (groups : list string) (ids : list string)
    : db_exn + list string :=
  match groups with
  | [] => inr ids
  | groupStr :: groups' =>
      let groupStr := py_strip [" "%char] groupStr in
      match parse_tokens (py_split "," groupStr) [] with
      | inl e => inl e
      | inr groupPath => parse_groups groups' (ids ++ [py_join "." groupPath])
      end
  end.

(** [ParseFromReturnData] changes [self] in place; here it returns the
    object it leaves behind.  When it raises, [self] has been changed in
    part: [ParseCredentialInfo], its caller in this module, then drops the
    object, and so does the model. *)
Definition ParseFromReturnData (self : CredentialInformation)
    (data : requestData) : db_exn + CredentialInformation :=
  if bool_decide (isRunningLocal data = Some true) then
    inr (MkCredentialInformation (clientaddress self) "local" (groupids self))
  else
    match environ data with
    | None =>
        inl (DbException "Data does not contain environment information")
    | Some env =>
        let address :=
          match env !! "REMOTE_ADDR"%string with
          | Some a => Some a
          | None => clientaddress self
          end in
        let user :=
          match env !! "REMOTE_USER"%string with
          | Some u => u
          | None => userid self
          end in
        match env !! "HTTP_CAS_MEMBEROF"%string with
        | Some header =>
            let cas_memberof := py_strip ["["; "]"]%char header in
            match parse_groups (py_split ";" cas_memberof) (groupids self) with
            | inl e => inl e
            | inr ids => inr (MkCredentialInformation address user ids)
            end
        | None => inr (MkCredentialInformation address user (groupids self))
        end
    end.

(** [ParseCredentialInfo] *)
Definition ParseCredentialInfo (data : requestData)
    : db_exn + CredentialInformation :=
  ParseFromReturnData CredentialInformation_init data.

End Config.

(** ** The arguments of [MySQLdb.connect] *)

(** The attributes of [config] that [CreateOpenDatabaseArguments] reads;
    [None] stands for an attribute that is missing or has no length. *)
Record db_config := MkDbConfig {
  DBSRV : string;
  DBUSER : option string;
  DBPASS : option string
}.

Definition CreateOpenDatabaseArguments (config : db_config)
    : gmap string string :=
  let args : gmap string string :=
    <["charset" := "utf8"]> (<["host" := DBSRV config]> ∅) in
  match DBUSER config with
  | Some user =>
      if (0 <? String.length user)%nat then
        let args := <["user" := user]> args in
        match DBPASS config with
        | Some pass =>
            if (0 <? String.length pass)%nat
            then <["passwd" := pass]> args else args
        | None => args
        end
      else args
  | None => <["read_default_file" := "~/.my.cnf"]> args
  end.

(** * Properties *)

Section Properties.

Context {encoded : Type} (perform : list Z → encoded).
Implicit Types w : gmap string (list encoded).

(** ** The monad *)

Lemma bind_Ok {A B} (m : M A) (k : A → M B) w a w' :
  m w = Ok a w' → bind m k w = k a w'.
Proof. unfold bind. by intros ->. Qed.

Lemma bind_Raise {A B} (m : M A) (k : A → M B) w e w' :
  m w = Raise e w' → bind m k w = Raise e w'.
Proof. unfold bind. by intros ->. Qed.

Lemma bind_Ok_inv {A B} (m : M A) (k : A → M B) w b w2 :
  bind m k w = Ok b w2 → ∃ a w1, m w = Ok a w1 ∧ k a w1 = Ok b w2.
Proof. unfold bind. destruct (m w); naive_solver. Qed.

Lemma for_fold_app {A St} (f : St → A → M St) l1 l2 (acc : St) w :
  for_fold f (l1 ++ l2) acc w
  = bind (for_fold f l1 acc) (for_fold f l2) w.
Proof.
  revert acc w. induction l1 as [|x l1 IH]; intros acc w; simpl.
  - done.
  - unfold bind. destruct (f acc x w); [|done..]. by rewrite IH.
Qed.

(** ** The start-up scan *)

(** C10: [range] is applied to the category list itself, so the scan for
    ['_other_'] raises [TypeError] whatever the list: it never returns an
    index, and the script stops there with the store untouched, before the
    first record is read. *)
Theorem scan_raises_TypeError (fuel : nat) (start factor maxsize : Z)
    (categories : list string) (lines : list record) w :
  scan_otherCategoryNr categories w = Raise TypeError w
  ∧ (∀ other w', scan_otherCategoryNr categories w ≠ Ok other w')
  ∧ script perform fuel start factor maxsize categories lines w
    = Raise TypeError w.
Proof. by repeat split. Qed.

(** ** Two runs of the main loop *)

(** C6: with categories [A], [B] and the single level of width 10, the
    records at 1 and 5 leave the file empty, the record at 12 closes block 0
    with counts [1; 1], and the final [Finalise] adds block 1 with counts
    [1; 0]. *)
Theorem scenario_two_blocks :
  let lines := [("chr1", 1, "A"); ("chr1", 5, "B"); ("chr1", 12, "A")] in
  let path := "./Summaries/Summ_chr1_10"%string in
  let run m := match m with
               | Ok _ w => w !! path
               | _ => None
               end in
  run (main_loop perform ["A"; "B"]%string None 10 2 10 5 (take 2 lines)
         driver0 ∅) = Some []
  ∧ run (main_loop perform ["A"; "B"]%string None 10 2 10 5 lines driver0 ∅)
    = Some [perform [1; 1]]
  ∧ run (driver perform ["A"; "B"]%string None 10 2 10 5 lines ∅)
    = Some [perform [1; 1]; perform [1; 0]].
Proof. by vm_compute. Qed.

(** C1, on the code: [Add] never assigns [lastpos], so the record at 3 is
    accepted after the record at 5 and counted in the same block. *)
Theorem Add_accepts_earlier_position :
  ∃ s w,
    run_chromosome perform ["A"; "B"]%string None 5 "chr1" 10 2 10 outputdir
      [(5, "A"); (3, "A")]%string ∅ = Ok s w
    ∧ lastpos s = -1
    ∧ w !! "./Summaries/Summ_chr1_10"%string = Some [perform [2; 0]].
Proof. eexists _, _. by vm_compute. Qed.

(** ** Level construction *)

Lemma geometric_pow factor n b :
  geometric factor n b = (λ i : nat, b * factor ^ Z.of_nat i) <$> seq 0 n.
Proof.
  revert b. induction n as [|n IH]; intros b; simpl; [done|].
  f_equal; [lia|]. rewrite IH, <- fmap_S_seq, <- list_fmap_compose.
  apply list_fmap_ext. intros _ i _. simpl.
  rewrite Nat2Z.inj_succ, Z.pow_succ_r by lia. lia.
Qed.

(** What the loop has done when it returns. *)
Lemma build_levels_inv categories fuel chrom folder factor maxsize :
  ∀ bs acc w ls w',
    build_levels categories fuel chrom folder factor maxsize bs acc w
    = Ok ls w' →
    ∃ n, ls = acc ++ (fresh_level categories folder chrom
                        <$> geometric factor n bs)
         ∧ w' = foldl (λ w b, <[level_path folder chrom b := []]> w) w
                  (geometric factor n bs)
         ∧ Forall (λ b, b ≤ maxsize) (geometric factor n bs)
         ∧ maxsize < bs * factor ^ Z.of_nat n.
Proof.
  induction fuel as [|fuel IH]; intros bs acc w ls w' H; simpl in H; [done|].
  destruct (bs <=? maxsize) eqn:E.
  - unfold bind, py_open in H. apply IH in H as (n & -> & -> & Hall & Hn).
    exists (S n). simpl. rewrite <- app_assoc. repeat split.
    + constructor; [lia|done].
    + rewrite Nat2Z.inj_succ, Z.pow_succ_r by lia. lia.
  - injection H as <- <-. exists O. simpl. rewrite app_nil_r.
    repeat split; [constructor|lia].
Qed.

(** The loop returns when the factor is at least 2. *)
Lemma build_levels_returns categories fuel chrom folder factor maxsize :
  2 ≤ factor →
  ∀ bs acc w,
    1 ≤ bs → (Z.to_nat (maxsize - bs + 1) < fuel)%nat →
    ∃ ls w',
      build_levels categories fuel chrom folder factor maxsize bs acc w
      = Ok ls w'.
Proof.
  intros Hf. induction fuel as [|fuel IH]; intros bs acc w Hbs Hfuel; [lia|].
  simpl. destruct (bs <=? maxsize) eqn:E; [|by eexists _, _].
  unfold bind, py_open. apply IH; nia.
Qed.

(** Whether the loop returns depends on the block sizes only. *)
Lemma build_levels_returns_any categories fuel chrom folder factor maxsize :
  ∀ bs acc w ls w' chrom' folder' acc' w2,
    build_levels categories fuel chrom folder factor maxsize bs acc w
    = Ok ls w' →
    ∃ ls2 w2',
      build_levels categories fuel chrom' folder' factor maxsize bs acc' w2
      = Ok ls2 w2'.
Proof.
  induction fuel as [|fuel IH]; intros bs acc w ls w' chrom' folder' acc' w2 H;
    simpl in *; [done|].
  destruct (bs <=? maxsize); [|by eexists _, _].
  unfold bind, py_open in *. eapply IH, H.
Qed.

(** The loop does not return while the block size stays small. *)
Lemma build_levels_loops categories fuel chrom folder factor maxsize start :
  -1 ≤ factor ≤ 1 → start ≤ maxsize →
  ∀ bs acc w,
    Z.abs bs ≤ start →
    build_levels categories fuel chrom folder factor maxsize bs acc w
    = OutOfFuel.
Proof.
  intros Hf Hm. induction fuel as [|fuel IH]; intros bs acc w Hbs; [done|].
  simpl. destruct (bs <=? maxsize) eqn:E; [|lia].
  unfold bind, py_open. apply IH. nia.
Qed.

(** C5: for a start of at least 1 and a factor above 1, [__init__] makes
    one level per term of [start], [start * factor], [start * factor^2], ...
    that does not exceed [maxsize], in this (increasing) order, each with
    its first block and zero counts. *)
Theorem init_levels_geometric (categories : list string) (fuel : nat)
    (chrom folder : string) (start factor maxsize : Z) w :
  1 ≤ start → 1 < factor →
  (Z.to_nat (maxsize - start + 1) < fuel)%nat →
  ∃ s w' n,
    init categories fuel chrom start factor maxsize folder w = Ok s w'
    ∧ blocksize <$> levels s
      = (λ i : nat, start * factor ^ Z.of_nat i) <$> seq 0 n
    ∧ (∀ i : nat, (i < n)%nat → start * factor ^ Z.of_nat i ≤ maxsize)
    ∧ maxsize < start * factor ^ Z.of_nat n
    ∧ StronglySorted Z.lt (blocksize <$> levels s)
    ∧ levels s = fresh_level categories folder chrom
                   <$> (blocksize <$> levels s).
Proof.
  intros Hs Hf Hfuel. unfold init.
  destruct (build_levels_returns categories fuel chrom folder factor maxsize
              ltac:(lia) start [] w Hs Hfuel) as (ls & w' & H).
  exists (MkSummariser chrom folder (-1) start factor maxsize ls), w'.
  destruct (build_levels_inv _ _ _ _ _ _ _ _ _ _ _ H) as (n & -> & _ & Hall & Hn).
  exists n. rewrite (bind_Ok _ _ _ _ _ H). simpl.
  rewrite <- list_fmap_compose.
  assert (Hid : blocksize ∘ fresh_level categories folder chrom
                <$> geometric factor n start = geometric factor n start).
  { rewrite <- (list_fmap_id (geometric factor n start)) at 2.
    by apply list_fmap_ext. }
  rewrite Hid. rewrite geometric_pow in *. repeat split; [| done |].
  - intros i Hi. rewrite Forall_fmap, Forall_forall in Hall.
    apply (Hall i). apply elem_of_seq. lia.
  - clear Hall Hn Hid H. generalize 0%nat as k.
    induction n as [|n IH]; intros k; simpl; constructor; [apply IH|].
    apply Forall_fmap, Forall_forall. intros i [Hi _]%elem_of_seq. simpl.
    assert (0 < factor ^ Z.of_nat k) by (apply Z.pow_pos_nonneg; lia).
    assert (factor ^ Z.of_nat k < factor ^ Z.of_nat i)
      by (apply Z.pow_lt_mono_r; lia).
    nia.
Qed.

(** C9, as amended: [__init__] returns for a start of at least 1 and a
    factor above 1; it runs for ever when the start is between 1 and
    [maxsize] and the factor is 1, 0 or -1. *)
Theorem init_terminates_or_loops (categories : list string)
    (chrom folder : string) (start factor maxsize : Z) w :
  1 ≤ start →
  (1 < factor →
   ∀ fuel, (Z.to_nat (maxsize - start + 1) < fuel)%nat →
     ∃ s w', init categories fuel chrom start factor maxsize folder w
             = Ok s w')
  ∧ (-1 ≤ factor ≤ 1 → start ≤ maxsize →
     ∀ fuel, init categories fuel chrom start factor maxsize folder w
             = OutOfFuel).
Proof.
  intros Hs. split.
  - intros Hf fuel Hfuel. unfold init.
    destruct (build_levels_returns categories fuel chrom folder factor
                maxsize ltac:(lia) start [] w Hs Hfuel) as (ls & w' & H).
    eexists _, _. by rewrite (bind_Ok _ _ _ _ _ H).
  - intros Hf Hm fuel. unfold init, bind.
    by rewrite (build_levels_loops categories fuel chrom folder factor
                  maxsize start Hf Hm start [] w ltac:(lia)).
Qed.

(** ** One level *)

Lemma categorymap_lt categories val k :
  categorymap categories !! val = Some k → (k < length categories)%nat.
Proof.
  unfold categorymap, categorymap_of.
  assert (G : ∀ (l : list (nat * string)) (m : gmap string nat),
             foldl (λ m ic, <[ic.2 := ic.1]> m) m l !! val = Some k →
             (k, val) ∈ l ∨ m !! val = Some k).
  { induction l as [|[i c] l IH]; intros m H; simpl in *; [by right|].
    destruct (IH _ H) as [?|H']; [left; by constructor|].
    destruct (decide (c = val)) as [->|Hne].
    - rewrite lookup_insert_eq in H'. injection H' as ->. left. constructor.
    - rewrite lookup_insert_ne in H' by done. by right. }
  intros [H|H]%G; [|by rewrite lookup_empty in H].
  apply elem_of_lookup_imap in H as (i & c & [= -> ->] & H).
  by apply lookup_lt_Some in H.
Qed.

Lemma resolve_lt categories other val k :
  other_ok categories other →
  resolve categories other val = Some k → (k < length categories)%nat.
Proof.
  intros Ho. unfold resolve.
  destruct (categorymap categories !! val) eqn:E; [|by apply Ho].
  intros [= <-]. by eapply categorymap_lt.
Qed.

Lemma blocks_due_O pos l :
  pos < currentblockend l → blocks_due pos l = O.
Proof. unfold blocks_due. intros H. by rewrite (proj2 (Z.ltb_lt _ _) H). Qed.

Lemma blocks_due_S categories pos l :
  0 < blocksize l → currentblockend l ≤ pos →
  blocks_due pos l = S (blocks_due pos (StartNextBlock categories l)).
Proof.
  intros Hbs Hpos. unfold blocks_due. simpl.
  rewrite (proj2 (Z.ltb_ge _ _) Hpos). f_equal.
  destruct (pos <? currentblockend l + blocksize l) eqn:E.
  - rewrite Z.div_small by lia. done.
  - replace (pos - currentblockend l)
      with (pos - (currentblockend l + blocksize l) + 1 * blocksize l) by lia.
    rewrite Z.div_add by lia.
    assert (0 ≤ (pos - (currentblockend l + blocksize l)) / blocksize l)
      by (apply Z.div_pos; lia).
    lia.
Qed.

Lemma append_chunks_app path c1 c2 w :
  append_chunks path c2 (append_chunks path c1 w)
  = append_chunks path (c1 ++ c2) w.
Proof.
  destruct c1 as [|x c1]; [done|]. destruct c2 as [|y c2].
  - by rewrite app_nil_r.
  - unfold append_chunks. simpl.
    rewrite lookup_insert_eq, insert_insert_eq. simpl.
    by rewrite <- app_assoc.
Qed.

Lemma append_chunks_ne path chunks w g :
  g ≠ path → append_chunks path chunks w !! g = w !! g.
Proof.
  intros H. destruct chunks; [done|]. unfold append_chunks.
  by rewrite lookup_insert_ne.
Qed.

Lemma append_chunks_eq path chunks w c :
  w !! path = Some c → append_chunks path chunks w !! path = Some (c ++ chunks).
Proof.
  intros H. destruct chunks; simpl; [by rewrite app_nil_r|].
  by rewrite lookup_insert_eq, H.
Qed.

(** The [while] loop of [Add] closes [blocks_due] blocks and returns. *)
Lemma close_blocks_spec categories fuel pos :
  ∀ l w,
    0 < blocksize l → closed (outputfile l) = false →
    (blocks_due pos l < fuel)%nat →
    close_blocks perform categories fuel pos l w
    = Ok (close_n categories (blocks_due pos l) l)
        (append_chunks (path_of l)
           (chunks_n perform categories (blocks_due pos l) l) w).
Proof.
  induction fuel as [|fuel IH]; intros l w Hbs Hcl Hfuel; [lia|]. simpl.
  destruct (pos >=? currentblockend l) eqn:E.
  - apply Z.geb_le in E.
    rewrite (blocks_due_S categories) in * by done.
    unfold bind, CloseCurrentBlock, write. rewrite Hcl.
    rewrite IH by (simpl; (done || lia)). simpl. f_equal.
    change (name (outputfile l)) with (path_of l).
    change (<[path_of l := default [] (w !! path_of l)
                           ++ [perform (catcounts l)]]> w)
      with (append_chunks (path_of l) [perform (catcounts l)] w).
    by rewrite append_chunks_app.
  - rewrite blocks_due_O by lia. done.
Qed.

Lemma close_n_fields categories n l :
  blocksize (close_n categories n l) = blocksize l
  ∧ outputfile (close_n categories n l) = outputfile l
  ∧ currentblockend (close_n categories n l)
    = currentblockend l + Z.of_nat n * blocksize l
  ∧ catcounts (close_n categories n l)
    = match n with
      | O => catcounts l
      | S _ => replicate (length categories) 0
      end.
Proof.
  revert l. induction n as [|n IH]; intros l; simpl.
  - repeat split. lia.
  - destruct (IH (StartNextBlock categories l)) as (-> & -> & -> & ->). simpl.
    repeat split; [lia|]. by destruct n.
Qed.

Lemma chunks_n_zero categories n :
  ∀ l, catcounts l = replicate (length categories) 0 →
       chunks_n perform categories n l
       = replicate n (perform (replicate (length categories) 0)).
Proof.
  induction n as [|n IH]; intros l Hl; simpl; [done|].
  rewrite Hl. f_equal. by apply IH.
Qed.

Lemma chunks_n_eq categories n l :
  chunks_n perform categories n l
  = match n with
    | O => []
    | S n' => perform (catcounts l)
              :: replicate n' (perform (replicate (length categories) 0))
    end.
Proof. destruct n as [|n]; [done|]. simpl. by rewrite chunks_n_zero. Qed.

(** The body of the loop of [Add], on a level in order. *)
Lemma Add_level_spec categories other fuel pos val l w :
  level_ok categories l → other_ok categories other →
  (blocks_due pos l < fuel)%nat →
  Add_level perform categories other fuel pos val l w
  = Ok (bump_level (resolve categories other val)
          (close_n categories (blocks_due pos l) l))
      (append_chunks (path_of l)
         (chunks_n perform categories (blocks_due pos l) l) w).
Proof.
  intros (Hbs & _ & Hcl & Hlen) Ho Hfuel. unfold Add_level.
  rewrite (bind_Ok _ _ _ _ _ (close_blocks_spec categories fuel pos l w
                                Hbs Hcl Hfuel)).
  set (l1 := close_n categories (blocks_due pos l) l).
  assert (Hlen1 : length (catcounts l1) = length categories).
  { unfold l1.
    destruct (close_n_fields categories (blocks_due pos l) l)
      as (_ & _ & _ & ->).
    destruct (blocks_due pos l); [done|]. by rewrite length_replicate. }
  assert (Hinc : ∀ k, (k < length categories)%nat →
                   increment k l1 (append_chunks (path_of l)
                     (chunks_n perform categories (blocks_due pos l) l) w)
                   = Ok (bump_level (Some k) l1)
                       (append_chunks (path_of l)
                          (chunks_n perform categories (blocks_due pos l) l)
                          w)).
  { intros k Hk. unfold increment, bump_level, bump.
    destruct (lookup_lt_is_Some_2 (catcounts l1) k ltac:(lia)) as [c Hc].
    by rewrite Hc. }
  unfold resolve.
  destruct (categorymap categories !! val) as [k|] eqn:E.
  - apply Hinc. by eapply categorymap_lt.
  - destruct other as [k|]; [apply Hinc; by apply Ho|].
    clearbody l1. by destruct l1.
Qed.

(** ** All levels *)

Lemma for_each_pure {A B} (f : A → M B) (g : A → B)
    (h : A → gmap string (list encoded) → gmap string (list encoded)) ls :
  (∀ x w, x ∈ ls → f x w = Ok (g x) (h x w)) →
  ∀ w, for_each f ls w = Ok (g <$> ls) (foldl (λ w x, h x w) w ls).
Proof.
  induction ls as [|a ls IH]; intros Hf w; simpl; [done|].
  unfold bind. rewrite Hf by left.
  rewrite IH by (intros; apply Hf; by right). done.
Qed.

Lemma foldl_append_ne (ch : Level → list encoded) ls g :
  g ∉ path_of <$> ls →
  ∀ w, foldl (λ w l, append_chunks (path_of l) (ch l) w) w ls !! g = w !! g.
Proof.
  induction ls as [|a ls IH]; intros Hg w; simpl; [done|].
  rewrite fmap_cons, not_elem_of_cons in Hg. destruct Hg as [Hne Hg].
  rewrite IH by done. by apply append_chunks_ne.
Qed.

Lemma foldl_append_eq (ch : Level → list encoded) ls l :
  NoDup (path_of <$> ls) → l ∈ ls →
  ∀ w c, w !! path_of l = Some c →
    foldl (λ w l, append_chunks (path_of l) (ch l) w) w ls !! path_of l
    = Some (c ++ ch l).
Proof.
  induction ls as [|a ls IH]; intros Hnd Hl w c Hc; [by inversion Hl|].
  rewrite fmap_cons in Hnd. apply NoDup_cons in Hnd as [Ha Hnd]. simpl.
  apply elem_of_cons in Hl as [->|Hl].
  - rewrite foldl_append_ne by done. by apply append_chunks_eq.
  - apply IH; [done..|]. rewrite append_chunks_ne; [done|].
    intros E. apply Ha. rewrite <- E. by apply list_elem_of_fmap_2.
Qed.

Lemma Add_spec categories other fuel pos val s w :
  Forall (level_ok categories) (levels s) → other_ok categories other →
  lastpos s < pos →
  Forall (λ l, (blocks_due pos l < fuel)%nat) (levels s) →
  Add perform categories other fuel pos val s w
  = Ok (set_levels
          ((λ l, bump_level (resolve categories other val)
                   (close_n categories (blocks_due pos l) l)) <$> levels s) s)
      (foldl (λ w l, append_chunks (path_of l)
                       (chunks_n perform categories (blocks_due pos l) l) w)
         w (levels s)).
Proof.
  intros Hok Ho Hpos Hfuel. unfold Add.
  rewrite (proj2 (Z.leb_gt _ _) Hpos). unfold bind.
  rewrite (for_each_pure _
             (λ l, bump_level (resolve categories other val)
                     (close_n categories (blocks_due pos l) l))
             (λ l w, append_chunks (path_of l)
                       (chunks_n perform categories (blocks_due pos l) l) w));
    [done|].
  intros l w0 Hl. rewrite Forall_forall in Hok, Hfuel.
  apply Add_level_spec; auto.
Qed.

Lemma level_ok_step categories o n l :
  level_ok categories l →
  level_ok categories (bump_level o (close_n categories n l)).
Proof.
  intros (Hbs & He & Hcl & Hlen).
  destruct (close_n_fields categories n l) as (E1 & E2 & E3 & E4).
  unfold level_ok, bump_level. simpl. rewrite E1, E2, E3.
  repeat split; [done|nia|done|].
  assert (length (catcounts (close_n categories n l)) = length categories)
    as Hl.
  { rewrite E4. destruct n; [done|]. by rewrite length_replicate. }
  unfold bump. destruct o as [k|]; [|done].
  destruct (_ !! k); [|done]. by rewrite length_insert.
Qed.

Lemma path_of_step categories o n l :
  path_of (bump_level o (close_n categories n l)) = path_of l.
Proof.
  unfold path_of, bump_level. simpl.
  by destruct (close_n_fields categories n l) as (_ & -> & _).
Qed.

(** [Add] keeps a pyramid in order and moves each level and its file by
    one step. *)
Lemma Add_preserves categories other fuel pos val
    (P P' : Level → list encoded → Prop) s w :
  (∀ l c, level_ok categories l → P l c →
     P' (bump_level (resolve categories other val)
           (close_n categories (blocks_due pos l) l))
        (c ++ chunks_n perform categories (blocks_due pos l) l)) →
  pyramid_inv categories P s w → other_ok categories other →
  lastpos s < pos →
  Forall (λ l, (blocks_due pos l < fuel)%nat) (levels s) →
  ∃ s' w',
    Add perform categories other fuel pos val s w = Ok s' w'
    ∧ pyramid_inv categories P' s' w'
    ∧ lastpos s' = lastpos s
    ∧ path_of <$> levels s' = path_of <$> levels s
    ∧ blocksize <$> levels s' = blocksize <$> levels s
    ∧ ∀ g, g ∉ path_of <$> levels s → w' !! g = w !! g.
Proof.
  intros Hstep [Hnd Hall] Ho Hpos Hfuel.
  assert (Hok : Forall (level_ok categories) (levels s))
    by (eapply Forall_impl; [exact Hall|]; by intros l [? _]).
  eexists _, _. split; [by apply Add_spec|].
  assert (Hpaths : path_of <$>
            ((λ l, bump_level (resolve categories other val)
                     (close_n categories (blocks_due pos l) l)) <$> levels s)
          = path_of <$> levels s).
  { rewrite <- list_fmap_compose. apply list_fmap_ext. intros _ l _. simpl.
    apply path_of_step. }
  repeat split; simpl.
  - by rewrite Hpaths.
  - apply Forall_fmap, Forall_forall. intros l Hl. simpl.
    rewrite Forall_forall in Hall. destruct (Hall l Hl) as (Hlok & c & Hc & HP).
    split; [by apply level_ok_step|].
    exists (c ++ chunks_n perform categories (blocks_due pos l) l).
    split; [|by apply Hstep].
    rewrite path_of_step.
    by apply (foldl_append_eq
                (λ l, chunks_n perform categories (blocks_due pos l) l)).
  - done.
  - rewrite <- list_fmap_compose. apply list_fmap_ext. intros _ l _. simpl.
    by destruct (close_n_fields categories (blocks_due pos l) l) as (-> & _).
  - intros g Hg.
    by apply (foldl_append_ne
                (λ l, chunks_n perform categories (blocks_due pos l) l)).
Qed.

Lemma blocks_due_le categories pos l :
  level_ok categories l → (blocks_due pos l ≤ Z.to_nat pos)%nat.
Proof.
  intros (Hbs & He & _). unfold blocks_due.
  destruct (pos <? currentblockend l) eqn:E; [lia|].
  apply Z.ltb_ge in E.
  assert ((pos - currentblockend l) / blocksize l ≤ pos - currentblockend l)
    by (apply Z.div_le_upper_bound; nia).
  assert (0 ≤ (pos - currentblockend l) / blocksize l)
    by (apply Z.div_pos; lia).
  lia.
Qed.

Lemma Finalise_spec s w :
  Forall (λ l, closed (outputfile l) = false) (levels s) →
  Finalise perform s w
  = Ok (set_levels (finalised <$> levels s) s)
      (foldl (λ w l, append_chunks (path_of l) [perform (catcounts l)] w)
         w (levels s)).
Proof.
  intros Hcl. unfold Finalise, bind.
  rewrite (for_each_pure _ finalised
             (λ l w, append_chunks (path_of l) [perform (catcounts l)] w));
    [done|].
  intros l w0 Hl. rewrite Forall_forall in Hcl.
  unfold Finalise_level, bind, CloseCurrentBlock, write.
  by rewrite (Hcl l Hl).
Qed.

(** [Finalise] adds the counts in hand to the file of each level. *)
Lemma Finalise_inv categories (P : Level → list encoded → Prop) s w :
  pyramid_inv categories P s w →
  ∃ s' w',
    Finalise perform s w = Ok s' w'
    ∧ levels s' = finalised <$> levels s
    ∧ Forall (λ l, ∃ c, w !! path_of l = Some c ∧ P l c
                        ∧ w' !! path_of l = Some (c ++ [perform (catcounts l)]))
        (levels s)
    ∧ ∀ g, g ∉ path_of <$> levels s → w' !! g = w !! g.
Proof.
  intros [Hnd Hall]. eexists _, _. split.
  { apply Finalise_spec. eapply Forall_impl; [exact Hall|].
    by intros l [(_ & _ & ? & _) _]. }
  simpl. repeat split.
  - apply Forall_forall. intros l Hl. rewrite Forall_forall in Hall.
    destruct (Hall l Hl) as (_ & c & Hc & HP). exists c.
    repeat split; [done..|].
    by apply (foldl_append_eq (λ l, [perform (catcounts l)])).
  - intros g Hg. by apply (foldl_append_ne (λ l, [perform (catcounts l)])).
Qed.

(** ** A pyramid from construction on *)

Lemma geometric_bounds factor n :
  2 ≤ factor →
  ∀ b, 1 ≤ b →
    Forall (λ x, b ≤ x) (geometric factor n b) ∧ NoDup (geometric factor n b).
Proof.
  intros Hf. induction n as [|n IH]; intros b Hb; simpl.
  - split; constructor.
  - destruct (IH (b * factor) ltac:(nia)) as [Hall Hnd].
    split; constructor; [lia| |  |done].
    + eapply Forall_impl; [exact Hall|]. simpl. intros x Hx. nia.
    + rewrite Forall_forall in Hall. intros Hin%Hall. nia.
Qed.

Global Instance level_path_inj folder chrom : Inj (=) (=) (level_path folder chrom).
Proof.
  intros b1 b2 H. unfold level_path in H.
  by do 4 apply (inj (String.append _)) in H; apply (inj pretty) in H.
Qed.

Lemma foldl_open_lookup (path : Z → string) l g :
  ∀ w, foldl (λ w b, <[path b := []]> w) w l !! g
       = if decide (g ∈ path <$> l) then Some [] else w !! g.
Proof.
  induction l as [|b l IH]; intros w; simpl.
  - done.
  - rewrite IH. change (list_fmap Z string path l) with (path <$> l).
    destruct (decide (g ∈ path <$> l)) as [Hin|Hin].
    + rewrite decide_True; [done|by right].
    + destruct (decide (g = path b)) as [->|Hne].
      * rewrite decide_True by left. by rewrite lookup_insert_eq.
      * rewrite decide_False by (by intros [?|?]%elem_of_cons).
        by rewrite lookup_insert_ne.
Qed.

(** [__init__] returns a pyramid in order, every file empty. *)
Lemma init_spec categories fuel chrom folder start factor maxsize w :
  1 ≤ start → 1 < factor →
  (Z.to_nat (maxsize - start + 1) < fuel)%nat →
  ∃ s w',
    init categories fuel chrom start factor maxsize folder w = Ok s w'
    ∧ pyramid_inv categories (fresh categories) s w'
    ∧ lastpos s = -1
    ∧ chromosome s = chrom
    ∧ path_of <$> levels s = level_path folder chrom <$> (blocksize <$> levels s)
    ∧ ∀ g, g ∉ path_of <$> levels s → w' !! g = w !! g.
Proof.
  intros Hs Hf Hfuel. unfold init.
  destruct (build_levels_returns categories fuel chrom folder factor maxsize
              ltac:(lia) start [] w Hs Hfuel) as (ls & w' & H).
  rewrite (bind_Ok _ _ _ _ _ H). eexists _, _. split; [done|]. simpl.
  destruct (build_levels_inv _ _ _ _ _ _ _ _ _ _ _ H) as (n & -> & -> & _ & _).
  simpl. destruct (geometric_bounds factor n ltac:(lia) start Hs) as [Hge Hnd].
  assert (Hp : path_of <$> (fresh_level categories folder chrom
                              <$> geometric factor n start)
               = level_path folder chrom <$> geometric factor n start).
  { rewrite <- list_fmap_compose. by apply list_fmap_ext. }
  assert (Hb : blocksize <$> (fresh_level categories folder chrom
                                <$> geometric factor n start)
               = geometric factor n start).
  { rewrite <- list_fmap_compose.
    rewrite <- (list_fmap_id (geometric factor n start)) at 2.
    by apply list_fmap_ext. }
  unfold pyramid_inv. simpl. rewrite Hp, Hb. repeat split.
  - by apply (NoDup_fmap_2 _).
  - apply Forall_fmap, Forall_forall. intros b Hin. simpl.
    rewrite Forall_forall in Hge. specialize (Hge b Hin).
    split; [unfold level_ok; simpl; rewrite length_replicate; repeat split; lia|].
    exists []. split; [|done].
    unfold path_of. simpl. rewrite foldl_open_lookup.
    rewrite decide_True; [done|]. by apply list_elem_of_fmap_2.
  - intros g Hg. rewrite foldl_open_lookup. by rewrite decide_False.
Qed.

(** The records of one chromosome, one [Add] each: what [P] says of the
    records so far holds of every level and its file. *)
Lemma records_inv categories other fuel
    (P : list (Z * string) → Level → list encoded → Prop)
    (good : list (Z * string) → Z * string → Prop) :
  other_ok categories other →
  (∀ recs r l c,
     good recs r → 0 ≤ r.1 → level_ok categories l → P recs l c →
     P (recs ++ [r])
       (bump_level (resolve categories other r.2)
          (close_n categories (blocks_due r.1 l) l))
       (c ++ chunks_n perform categories (blocks_due r.1 l) l)) →
  ∀ recs s w,
    pyramid_inv categories (P []) s w → lastpos s = -1 →
    (∀ pre r post, recs = pre ++ r :: post →
       good pre r ∧ 0 ≤ r.1 ∧ (Z.to_nat r.1 < fuel)%nat) →
    ∃ s' w',
      for_fold (λ s r, Add perform categories other fuel r.1 r.2 s) recs s w
      = Ok s' w'
      ∧ pyramid_inv categories (P recs) s' w'
      ∧ lastpos s' = -1
      ∧ path_of <$> levels s' = path_of <$> levels s
      ∧ blocksize <$> levels s' = blocksize <$> levels s
      ∧ ∀ g, g ∉ path_of <$> levels s → w' !! g = w !! g.
Proof.
  intros Ho Hstep recs. induction recs as [|r recs IH] using rev_ind;
    intros s w Hinv Hlast Hrecs.
  - by exists s, w.
  - destruct (IH s w Hinv Hlast) as (s1 & w1 & H1 & Hinv1 & Hl1 & Hp1 & Hb1 & Hf1).
    { intros pre r0 post ->. apply (Hrecs pre r0 (post ++ [r])).
      by rewrite <- app_assoc. }
    destruct (Hrecs recs r [] eq_refl) as (Hgood & Hpos & Hfuel).
    destruct (Add_preserves categories other fuel r.1 r.2
                (P recs) (P (recs ++ [r])) s1 w1)
      as (s2 & w2 & H2 & Hinv2 & Hl2 & Hp2 & Hb2 & Hf2).
    + intros l c Hl HP. by apply Hstep.
    + done.
    + done.
    + lia.
    + destruct Hinv1 as [_ Hall]. eapply Forall_impl; [exact Hall|].
      intros l [Hl _]. simpl.
      pose proof (blocks_due_le categories r.1 l Hl). lia.
    + exists s2, w2. rewrite for_fold_app, (bind_Ok _ _ _ _ _ H1). simpl.
      unfold bind. rewrite H2.
      split; [done|]. split; [done|].
      repeat split; [congruence..|].
      intros g Hg. rewrite Hf2, Hf1; [done..|by rewrite Hp1].
Qed.

Lemma pyramid_inv_impl categories (P Q : Level → list encoded → Prop) s w :
  (∀ l c, level_ok categories l → P l c → Q l c) →
  pyramid_inv categories P s w → pyramid_inv categories Q s w.
Proof.
  intros HPQ [Hnd Hall]. split; [done|].
  eapply Forall_impl; [exact Hall|]. intros l (Hl & c & Hc & HP). eauto.
Qed.

Lemma fmap_eq_Forall {A B} (f g : A → B) (l : list A) :
  f <$> l = g <$> l → Forall (λ x, f x = g x) l.
Proof.
  induction l as [|x l IH]; intros H; [constructor|].
  injection H as H1 H2. constructor; auto.
Qed.

(** ** Conservation *)

Lemma sum_counts_replicate n : sum_counts (replicate n 0) = 0.
Proof. unfold sum_counts. induction n as [|n IH]; simpl; lia. Qed.

Lemma sum_counts_insert counts k c :
  counts !! k = Some c →
  sum_counts (<[k := c + 1]> counts) = sum_counts counts + 1.
Proof.
  unfold sum_counts. revert k.
  induction counts as [|x counts IH]; intros [|k] H; simpl in *; try done.
  - injection H as ->. lia.
  - specialize (IH k H). lia.
Qed.

Lemma sum_counts_bump counts k :
  (k < length counts)%nat →
  sum_counts (bump (Some k) counts) = sum_counts counts + 1.
Proof.
  intros Hk. unfold bump.
  destruct (lookup_lt_is_Some_2 counts k Hk) as [c Hc]. rewrite Hc.
  by apply sum_counts_insert.
Qed.

Lemma sum_blocks_app b1 b2 :
  sum_blocks (b1 ++ b2) = sum_blocks b1 + sum_blocks b2.
Proof.
  unfold sum_blocks. induction b1 as [|x b1 IH]; simpl; lia.
Qed.

Lemma sum_blocks_replicate n z :
  sum_counts z = 0 → sum_blocks (replicate n z) = 0.
Proof.
  intros Hz. unfold sum_blocks. induction n as [|n IH]; simpl; lia.
Qed.

Lemma conserved_step categories other recs r l c :
  other_ok categories other →
  is_Some (resolve categories other r.2) →
  level_ok categories l → conserved perform recs l c →
  conserved perform (recs ++ [r])
    (bump_level (resolve categories other r.2)
       (close_n categories (blocks_due r.1 l) l))
    (c ++ chunks_n perform categories (blocks_due r.1 l) l).
Proof.
  intros Ho [k Hk] (_ & _ & _ & Hlen) (blocks & -> & Hsum).
  pose proof (resolve_lt _ _ _ _ Ho Hk) as Hlt. rewrite Hk.
  destruct (close_n_fields categories (blocks_due r.1 l) l)
    as (_ & _ & _ & Hc).
  rewrite chunks_n_eq. unfold conserved, bump_level. cbn [catcounts].
  rewrite length_app. cbn [length]. destruct (blocks_due r.1 l) as [|n].
  - exists blocks. rewrite app_nil_r. split; [done|].
    rewrite sum_counts_bump by (rewrite Hc; lia). rewrite Hc. lia.
  - exists (blocks ++ catcounts l
                      :: replicate n (replicate (length categories) 0)).
    split.
    + by rewrite fmap_app, fmap_cons, fmap_replicate.
    + rewrite sum_counts_bump by (rewrite Hc, length_replicate; lia).
      rewrite Hc, sum_blocks_app. cbn [sum_blocks foldr].
      fold (sum_blocks (replicate n (replicate (length categories) 0))).
      rewrite sum_blocks_replicate by apply sum_counts_replicate.
      rewrite sum_counts_replicate. lia.
Qed.

(** C4: when every record of a chromosome has a position from 0 on and a
    value that resolves to an index, the count vectors in the file of each
    level, the final partial block included, add up to the number of
    records.  [decode] reads a block back. *)
Theorem counts_conserved (categories : list string) (other : option nat)
    (fuel : nat) (chrom folder : string) (start factor maxsize : Z)
    (recs : list (Z * string)) (decode : encoded → list Z) w :
  1 ≤ start → 1 < factor → other_ok categories other →
  (∀ counts, decode (perform counts) = counts) →
  Forall (λ r, 0 ≤ r.1 ∧ is_Some (resolve categories other r.2)) recs →
  (Z.to_nat (maxsize - start + 1) < fuel)%nat →
  Forall (λ r, (Z.to_nat r.1 < fuel)%nat) recs →
  ∃ s w',
    run_chromosome perform categories other fuel chrom start factor maxsize
      folder recs w = Ok s w'
    ∧ Forall (λ l, path_of l = level_path folder chrom (blocksize l)
                   ∧ ∃ c, w' !! path_of l = Some c
                          ∧ sum_blocks (decode <$> c)
                            = Z.of_nat (length recs))
        (levels s).
Proof.
  intros Hs Hf Ho Hdec Hrecs Hfuel Hfuels. unfold run_chromosome.
  destruct (init_spec categories fuel chrom folder start factor maxsize w
              Hs Hf Hfuel) as (s0 & w0 & H0 & Hinv0 & Hl0 & _ & Hp0 & _).
  rewrite (bind_Ok _ _ _ _ _ H0).
  destruct (records_inv categories other fuel (conserved perform)
              (λ _ r, is_Some (resolve categories other r.2)) Ho
              ltac:(intros; by apply conserved_step) recs s0 w0)
    as (s1 & w1 & H1 & Hinv1 & _ & Hp1 & Hb1 & _).
  { eapply pyramid_inv_impl; [|exact Hinv0].
    intros l c _ (-> & _ & Hc). exists []. split; [done|].
    rewrite Hc, sum_counts_replicate. done. }
  { done. }
  { intros pre r post ->.
    apply Forall_app in Hrecs as [_ [[? ?] _]%Forall_cons].
    by apply Forall_app in Hfuels as [_ [? _]%Forall_cons]. }
  rewrite (bind_Ok _ _ _ _ _ H1).
  destruct (Finalise_inv categories _ s1 w1 Hinv1)
    as (s2 & w2 & H2 & Hs2 & Hall & _).
  exists s2, w2. split; [done|]. rewrite Hs2.
  rewrite <- Hp1, <- Hb1, <- list_fmap_compose in Hp0.
  apply fmap_eq_Forall in Hp0.
  apply Forall_fmap, Forall_forall. intros l Hl.
  rewrite Forall_forall in Hp0, Hall. specialize (Hp0 l Hl).
  destruct (Hall l Hl) as (c & _ & (blocks & -> & Hsum) & Hw). simpl.
  split; [done|]. eexists. split; [exact Hw|].
  rewrite fmap_app, <- list_fmap_compose. simpl.
  rewrite (list_fmap_ext (decode ∘ perform) id blocks)
    by (intros; apply Hdec).
  rewrite list_fmap_id, Hdec, sum_blocks_app. simpl. lia.
Qed.

(** ** Cadence *)

Lemma block_counts_snoc categories other bs i recs r :
  block_counts categories other bs i (recs ++ [r])
  = if in_block bs i r.1
    then bump (resolve categories other r.2)
           (block_counts categories other bs i recs)
    else block_counts categories other bs i recs.
Proof. unfold block_counts. by rewrite foldl_snoc. Qed.

(** A block without records has zero counts. *)
Lemma block_counts_empty categories other bs i recs :
  Forall (λ r, in_block bs i r.1 = false) recs →
  block_counts categories other bs i recs = replicate (length categories) 0.
Proof.
  induction recs as [|r recs IH] using rev_ind; intros H; [done|].
  apply Forall_app in H as [H1 [H2 _]%Forall_cons].
  rewrite block_counts_snoc, H2. by apply IH.
Qed.

Lemma blocks_due_bounds pos l :
  0 < blocksize l →
  pos < currentblockend l + Z.of_nat (blocks_due pos l) * blocksize l
  ∧ (blocks_due pos l ≠ O →
     currentblockend l + (Z.of_nat (blocks_due pos l) - 1) * blocksize l
     ≤ pos).
Proof.
  intros Hbs. unfold blocks_due.
  destruct (pos <? currentblockend l) eqn:E.
  - apply Z.ltb_lt in E. split; [lia|done].
  - apply Z.ltb_ge in E.
    assert (0 ≤ (pos - currentblockend l) / blocksize l)
      by (apply Z.div_pos; lia).
    pose proof (Z.mul_div_le (pos - currentblockend l) (blocksize l) Hbs).
    pose proof (Z.mul_succ_div_gt (pos - currentblockend l) (blocksize l) Hbs).
    rewrite Nat2Z.inj_succ, Z2Nat.id by done. split; [lia|]. intros _. lia.
Qed.

Lemma fmap_seq_const {A} (f : nat → A) (z : A) m :
  ∀ j, (∀ i, (j ≤ i < j + m)%nat → f i = z) → f <$> seq j m = replicate m z.
Proof.
  induction m as [|m IH]; intros j H; simpl; [done|].
  f_equal; [apply H; lia|]. apply IH. intros i Hi. apply H. lia.
Qed.

Lemma cadence_step categories other recs r l c :
  Forall (λ r0, r0.1 < r.1) recs → 0 ≤ r.1 →
  level_ok categories l → cadence perform categories other recs l c →
  cadence perform categories other (recs ++ [r])
    (bump_level (resolve categories other r.2)
       (close_n categories (blocks_due r.1 l) l))
    (c ++ chunks_n perform categories (blocks_due r.1 l) l).
Proof.
  intros Hgood Hpos (Hbs & He & _ & Hlen) (b & Hend & -> & Hcnt & Hlt & Hlast).
  destruct (close_n_fields categories (blocks_due r.1 l) l)
    as (E1 & E2 & E3 & E4).
  destruct (blocks_due_bounds r.1 l Hbs) as [Hub Hlb].
  rewrite chunks_n_eq. set (n := blocks_due r.1 l) in *.
  set (bs := blocksize l) in *.
  assert (Hlo : bs * Z.of_nat (b + n) ≤ r.1).
  { destruct n as [|m].
    - rewrite Nat.add_0_r. destruct (last recs) as [r0|] eqn:El.
      + apply last_Some in El as [recs' ->].
        apply Forall_app in Hgood as [_ [? _]%Forall_cons]. lia.
      + subst b. lia.
    - specialize (Hlb ltac:(done)). lia. }
  assert (Hhi : r.1 < bs * (Z.of_nat (b + n) + 1)) by lia.
  assert (F1 : ∀ i, (i < b + n)%nat → in_block bs i r.1 = false).
  { intros i Hi. unfold in_block.
    rewrite (proj2 (Z.ltb_ge r.1 (bs * (Z.of_nat i + 1)))) by nia.
    by rewrite andb_false_r. }
  assert (F2 : in_block bs (b + n) r.1 = true).
  { unfold in_block. apply andb_true_intro.
    split; [apply Z.leb_le|apply Z.ltb_lt]; done. }
  assert (F3 : ∀ i, (b < i)%nat →
            block_counts categories other bs i recs
            = replicate (length categories) 0).
  { intros i Hi. apply block_counts_empty.
    eapply Forall_impl; [exact Hlt|]. intros r0 Hr0. simpl in Hr0.
    unfold in_block.
    rewrite (proj2 (Z.leb_gt (bs * Z.of_nat i) r0.1)) by nia. done. }
  exists (b + n)%nat. unfold bump_level. cbn [blocksize currentblockend catcounts].
  rewrite E1, E3, E4. fold bs. repeat split.
  - lia.
  - rewrite seq_app, fmap_app. f_equal.
    + apply list_fmap_ext. intros j i Hi. apply lookup_seq in Hi as [-> Hj].
      simpl. by rewrite block_counts_snoc, F1 by lia.
    + destruct n as [|m]; [done|]. simpl. f_equal.
      * by rewrite block_counts_snoc, F1, Hcnt by lia.
      * symmetry. apply fmap_seq_const. intros i Hi.
        by rewrite block_counts_snoc, F1, F3 by lia.
  - rewrite block_counts_snoc, F2. f_equal. destruct n as [|m].
    + by rewrite Nat.add_0_r.
    + symmetry. apply F3. lia.
  - apply Forall_app. split.
    + eapply Forall_impl; [exact Hlt|]. simpl. intros r0 Hr0. nia.
    + constructor; [|constructor]. lia.
  - by rewrite last_snoc.
Qed.

(** C2, as amended: for a chromosome whose records have strictly
    increasing positions from 0 on, the last at [p], the file of every level
    holds [p / blocksize + 1] blocks after [Finalise]: block [i], at index
    [i], encodes the counts of the records in the range of block [i], which
    are all zero where the range has no record. *)
Theorem cadence_blocks (categories : list string) (other : option nat)
    (fuel : nat) (chrom folder : string) (start factor maxsize : Z)
    (recs : list (Z * string)) (p : Z) (v : string) w :
  1 ≤ start → 1 < factor → other_ok categories other →
  StronglySorted Z.lt (fst <$> recs) →
  Forall (λ r, 0 ≤ r.1) recs →
  last recs = Some (p, v) →
  (Z.to_nat (maxsize - start + 1) < fuel)%nat → (Z.to_nat p < fuel)%nat →
  ∃ s w',
    run_chromosome perform categories other fuel chrom start factor maxsize
      folder recs w = Ok s w'
    ∧ Forall
        (λ l, path_of l = level_path folder chrom (blocksize l)
              ∧ w' !! path_of l
                = Some ((λ i, perform (block_counts categories other
                                         (blocksize l) i recs))
                        <$> seq 0 (S (Z.to_nat (p / blocksize l)))))
        (levels s)
    ∧ ∀ bs i, Forall (λ r, in_block bs i r.1 = false) recs →
              block_counts categories other bs i recs
              = replicate (length categories) 0.
Proof.
  intros Hs Hf Ho Hsort Hrecs Hlast Hfuel Hfuelp. unfold run_chromosome.
  assert (Hmax : ∀ r, r ∈ recs → r.1 ≤ p).
  { intros r Hr. destruct (proj1 (last_Some _ _) Hlast) as [recs' E].
    rewrite E in Hr, Hsort.
    apply elem_of_app in Hr as [Hr| ->%list_elem_of_singleton]; [|done].
    rewrite fmap_app in Hsort. apply Z.lt_le_incl.
    apply (StronglySorted_app_1_elem_of _ _ _ r.1 p Hsort).
    - by apply list_elem_of_fmap_2.
    - by apply list_elem_of_singleton. }
  destruct (init_spec categories fuel chrom folder start factor maxsize w
              Hs Hf Hfuel) as (s0 & w0 & H0 & Hinv0 & Hl0 & _ & Hp0 & _).
  rewrite (bind_Ok _ _ _ _ _ H0).
  destruct (records_inv categories other fuel
              (cadence perform categories other)
              (λ pre r, Forall (λ r0, r0.1 < r.1) pre) Ho
              ltac:(intros; by apply cadence_step) recs s0 w0)
    as (s1 & w1 & H1 & Hinv1 & _ & Hp1 & Hb1 & _).
  { eapply pyramid_inv_impl; [|exact Hinv0].
    intros l c _ (-> & He & Hc). exists O. rewrite He, Hc.
    repeat split; [lia|constructor]. }
  { done. }
  { intros pre r post ->. repeat split.
    - apply Forall_forall. intros r0 Hr0.
      rewrite fmap_app in Hsort.
      apply (StronglySorted_app_1_elem_of _ _ _ r0.1 r.1 Hsort).
      + by apply list_elem_of_fmap_2.
      + rewrite fmap_cons. left.
    - by apply Forall_app in Hrecs as [_ [? _]%Forall_cons].
    - assert (r.1 ≤ p); [|lia].
      apply Hmax, elem_of_app. right. left. }
  rewrite (bind_Ok _ _ _ _ _ H1).
  destruct (Finalise_inv categories _ s1 w1 Hinv1)
    as (s2 & w2 & H2 & Hs2 & Hall & _).
  exists s2, w2. split; [done|]. split; [|intros bs i; apply block_counts_empty].
  rewrite Hs2. rewrite <- Hp1, <- Hb1, <- list_fmap_compose in Hp0.
  apply fmap_eq_Forall in Hp0.
  apply Forall_fmap, Forall_forall. intros l Hl.
  rewrite Forall_forall in Hp0, Hall. specialize (Hp0 l Hl).
  destruct (Hall l Hl) as (c & _ & (b & He & -> & Hc & Hlt & Hlo) & Hw).
  destruct Hinv1 as [_ Hok]. rewrite Forall_forall in Hok.
  destruct (Hok l Hl) as [(Hbs & _) _]. unfold path_of, compose in *.
  change (name (outputfile (finalised l))) with (name (outputfile l)).
  change (blocksize (finalised l)) with (blocksize l).
  split; [done|]. rewrite Hw. f_equal.
  rewrite Hlast in Hlo. simpl in Hlo.
  apply last_Some in Hlast as [recs' ->].
  apply Forall_app in Hlt as [_ [Hlt _]%Forall_cons]. simpl in Hlt.
  assert (Hdiv : p / blocksize l = Z.of_nat b).
  { symmetry. apply (Z.div_unique p (blocksize l) (Z.of_nat b)
                       (p - blocksize l * Z.of_nat b)); lia. }
  rewrite Hdiv, Nat2Z.id, seq_S, fmap_app. simpl. by rewrite Hc.
Qed.

(** ** The main loop *)

Lemma close_blocks_outputfile categories fuel pos :
  ∀ l w l' w',
    close_blocks perform categories fuel pos l w = Ok l' w' →
    outputfile l' = outputfile l.
Proof.
  induction fuel as [|fuel IH]; intros l w l' w' H; simpl in H; [done|].
  destruct (pos >=? currentblockend l).
  - apply bind_Ok_inv in H as (_ & w1 & _ & H). by apply IH in H.
  - by injection H as <- _.
Qed.

Lemma Add_level_outputfile categories other fuel pos val l w l' w' :
  Add_level perform categories other fuel pos val l w = Ok l' w' →
  outputfile l' = outputfile l.
Proof.
  unfold Add_level. intros (l1 & w1 & H1 & H)%bind_Ok_inv.
  apply close_blocks_outputfile in H1. rewrite <- H1.
  assert (∀ k, increment k l1 w1 = Ok l' w' → outputfile l' = outputfile l1)
    as Hinc.
  { intros k. unfold increment. destruct (_ !! k); [|done].
    by intros [= <- _]. }
  destruct (categorymap categories !! val); [by eapply Hinc|].
  destruct other; [by eapply Hinc|]. by injection H as <- _.
Qed.

Lemma for_each_Ok_inv {A B} (f : A → M B) (R : A → B → Prop) :
  (∀ x w y w', f x w = Ok y w' → R x y) →
  ∀ ls w ls' w', for_each f ls w = Ok ls' w' → Forall2 R ls ls'.
Proof.
  intros Hf. induction ls as [|x ls IH]; intros w ls' w' H; simpl in H.
  - injection H as <- _. constructor.
  - apply bind_Ok_inv in H as (y & w1 & Hy & H).
    apply bind_Ok_inv in H as (ys & w2 & Hys & H). injection H as <- _.
    constructor; [by eapply Hf|by eapply IH].
Qed.

Lemma Add_Ok_inv categories other fuel pos val s w s' w' :
  Add perform categories other fuel pos val s w = Ok s' w' →
  chromosome s' = chromosome s
  ∧ lastpos s' = lastpos s
  ∧ outputfile <$> levels s' = outputfile <$> levels s.
Proof.
  unfold Add. destruct (pos <=? lastpos s); [done|].
  intros (ls & w1 & H & [= <- _])%bind_Ok_inv. repeat split. simpl.
  eapply for_each_Ok_inv in H;
    [|intros ????; apply Add_level_outputfile].
  induction H as [|???? E]; simpl; [done|]. by rewrite E; f_equal.
Qed.

Lemma init_Ok_inv categories fuel chrom start factor maxsize folder w s w' :
  init categories fuel chrom start factor maxsize folder w = Ok s w' →
  chromosome s = chrom
  ∧ Forall (λ l, closed (outputfile l) = false) (levels s)
  ∧ (∀ g, (∀ b, g ≠ level_path folder chrom b) → w' !! g = w !! g)
  ∧ Forall (λ l, w' !! path_of l = Some []) (levels s).
Proof.
  unfold init. intros (ls & w1 & H & [= <- <-])%bind_Ok_inv.
  apply build_levels_inv in H as (n & -> & -> & _). simpl. repeat split.
  - apply Forall_fmap, Forall_forall. by intros.
  - intros g Hg. rewrite foldl_open_lookup, decide_False; [done|].
    intros (b & -> & _)%list_elem_of_fmap. by apply (Hg b).
  - apply Forall_fmap, Forall_forall. intros b Hb. simpl.
    change (path_of (fresh_level categories folder chrom b))
      with (level_path folder chrom b).
    rewrite foldl_open_lookup, decide_True; [done|].
    by apply list_elem_of_fmap_2.
Qed.

(** The two ways a turn of the loop ends well. *)
Lemma step_Ok_inv categories other start factor maxsize fuel d chrom pos val
    w d' w' :
  step perform categories other start factor maxsize fuel d (chrom, pos, val)
    w = Ok d' w' →
  (chrom = currentChromosome d
   ∧ ∃ s s', summariser d = Some s
             ∧ Add perform categories other fuel pos val s w = Ok s' w'
             ∧ d' = MkDriver (currentChromosome d) (Some s')
                      (processedChromosomes d) (linecount d + 1))
  ∨ (chrom ≠ currentChromosome d
     ∧ processedChromosomes d !! chrom = None
     ∧ ∃ w1 s w2 s',
         init categories fuel chrom start factor maxsize outputdir w1
         = Ok s w2
         ∧ Add perform categories other fuel pos val s w2 = Ok s' w'
         ∧ d' = MkDriver chrom (Some s')
                  (<[chrom := true]> (processedChromosomes d))
                  (linecount d + 1)).
Proof.
  unfold step. intros (d1 & w1 & H1 & H)%bind_Ok_inv. simpl in H1.
  destruct (decide (chrom = currentChromosome d)) as [E|E].
  - left. split; [done|]. injection H1 as <- <-. simpl in H.
    destruct (summariser d) as [s|]; [|done].
    apply bind_Ok_inv in H as (s' & w2 & H & [= <- <-]). by exists s, s'.
  - right. split; [done|]. unfold switch_chromosome in H1. simpl in H1.
    apply bind_Ok_inv in H1 as (_ & w2 & _ & H1).
    apply bind_Ok_inv in H1 as (s & w3 & Hi & H1).
    destruct (decide (is_Some (processedChromosomes d !! chrom)))
      as [|Hn]; [done|].
    injection H1 as <- <-. simpl in H.
    apply bind_Ok_inv in H as (s' & w4 & H & [= <- <-]).
    split; [by apply eq_None_not_Some|]. by exists w2, s, w3, s'.
Qed.

Lemma main_loop_inv categories other start factor maxsize fuel w0 :
  ∀ pre d w,
    main_loop perform categories other start factor maxsize fuel pre
      driver0 w0 = Ok d w →
    driver_inv (encoded:=encoded) categories fuel start factor maxsize pre d.
Proof.
  induction pre as [|[[chrom pos] val] pre IH] using rev_ind; intros d w H.
  - injection H as <- _. split; [|done]. intros c. simpl.
    rewrite lookup_empty. split; [by intros []|by intros ?%elem_of_nil].
  - unfold main_loop in H. rewrite for_fold_app in H.
    apply bind_Ok_inv in H as (d1 & w1 & H1 & H).
    apply IH in H1 as [Hproc Hlast]. simpl in H.
    apply bind_Ok_inv in H as (d2 & w2 & H & [= <- <-]).
    unfold driver_inv. rewrite last_snoc, fmap_app. simpl.
    change (label (chrom, pos, val)) with chrom.
    apply step_Ok_inv in H
      as [(-> & s & s' & Hs & Hadd & ->)
         |(Hne & Hnew & w3 & s & w4 & s' & Hinit & Hadd & ->)]; simpl.
    + destruct (last pre) as [r|] eqn:El; [|by subst d1].
      destruct Hlast as (Hcur & s0 & Hs0 & Hchr & Hcl & Hbuild).
      rewrite Hs in Hs0. injection Hs0 as <-.
      apply Add_Ok_inv in Hadd as (Hc' & _ & Hfiles). split.
      * intros c. rewrite Hproc, elem_of_app, list_elem_of_singleton.
        split; [by left|]. intros [?| ->]; [done|].
        rewrite Hcur. apply list_elem_of_fmap_2.
        apply last_Some in El as [? ->]. apply elem_of_app. right. left.
      * split; [done|]. exists s'. rewrite Hcur. repeat split; [congruence| |done].
        apply Forall_forall. intros l' Hl'.
        assert (outputfile l' ∈ outputfile <$> levels s) as Hin
          by (rewrite <- Hfiles; by apply list_elem_of_fmap_2).
        apply list_elem_of_fmap in Hin as (l & -> & Hl).
        rewrite Forall_forall in Hcl. by apply Hcl.
    + pose proof Hinit as Hinit'.
      apply init_Ok_inv in Hinit as (Hchr & Hcl & _).
      apply Add_Ok_inv in Hadd as (Hc' & _ & Hfiles). split.
      * intros c. rewrite elem_of_app, list_elem_of_singleton, <- Hproc.
        destruct (decide (c = chrom)) as [->|Hc].
        -- rewrite lookup_insert_eq. split; [by right|by eexists].
        -- rewrite lookup_insert_ne by done.
           split; [by left|by intros [?|?]].
      * split; [done|]. exists s'. repeat split; [congruence| |].
        -- apply Forall_forall. intros l' Hl'.
           assert (outputfile l' ∈ outputfile <$> levels s) as Hin
             by (rewrite <- Hfiles; by apply list_elem_of_fmap_2).
           apply list_elem_of_fmap in Hin as (l & -> & Hl).
           rewrite Forall_forall in Hcl. by apply Hcl.
        -- unfold init in Hinit'.
           apply bind_Ok_inv in Hinit' as (ls & w5 & Hb & _).
           by exists w3, ls, w5.
Qed.

(** A repeated chromosome: the active pyramid is finalised, the files of
    the repeated chromosome are opened again, and the loop raises. *)
Lemma repeated_label categories other start factor maxsize fuel
    (pre : list record) (r0 r : record) d w0 w1 :
  main_loop perform categories other start factor maxsize fuel pre driver0 w0
  = Ok d w1 →
  last pre = Some r0 → label r0 ≠ label r → label r ∈ label <$> pre →
  ∃ s s' w2 snew w3,
    summariser d = Some s
    ∧ chromosome s = label r0
    ∧ Finalise perform s w1 = Ok s' w2
    ∧ init categories fuel (label r) start factor maxsize outputdir w2
      = Ok snew w3
    ∧ ∀ rest,
        main_loop perform categories other start factor maxsize fuel
          (pre ++ r :: rest) driver0 w0
        = Raise (Exception "File should be ordered by chromosome") w3.
Proof.
  intros H Hlast Hne Hin.
  destruct (main_loop_inv _ _ _ _ _ _ _ _ _ _ H) as [Hproc Hl].
  rewrite Hlast in Hl.
  destruct Hl as (Hcur & s & Hs & Hchr & Hcl & wb & ls & wb' & Hbuild).
  pose proof (Finalise_spec s w1 Hcl) as Hfin.
  set (w2 := foldl (λ w l, append_chunks (path_of l) [perform (catcounts l)] w)
               w1 (levels s)) in *.
  destruct (build_levels_returns_any _ _ _ _ _ _ _ _ _ _ _
              (label r) outputdir [] w2 Hbuild) as (ls2 & w3 & Hb2).
  assert (Hinit : init categories fuel (label r) start factor maxsize
                    outputdir w2
                  = Ok (MkSummariser (label r) outputdir (-1) start factor
                          maxsize ls2) w3).
  { unfold init. by rewrite (bind_Ok _ _ _ _ _ Hb2). }
  eexists s, _, w2, _, w3. repeat split; [done|done|exact Hfin|exact Hinit|].
  intros rest. unfold main_loop in *. rewrite for_fold_app.
  rewrite (bind_Ok _ _ _ _ _ H). simpl. apply bind_Raise.
  destruct r as [[chrom pos] val]. change (label (chrom, pos, val)) with chrom in *.
  unfold step. apply bind_Raise. simpl.
  rewrite decide_False by congruence.
  unfold switch_chromosome. simpl. rewrite Hs.
  rewrite (bind_Ok _ _ w1 tt w2) by (by rewrite (bind_Ok _ _ _ _ _ Hfin)).
  rewrite (bind_Ok _ _ _ _ _ Hinit).
  rewrite decide_True by (by apply Hproc). done.
Qed.

(** ** The names of the files *)

Lemma occurs_app a s1 s2 :
  occurs a (s1 +:+ s2) = occurs a s1 || occurs a s2.
Proof.
  induction s1 as [|b s1 IH]; [done|].
  change (String b s1 +:+ s2) with (String b (s1 +:+ s2)). simpl.
  by rewrite IH, orb_assoc.
Qed.

Lemma pretty_N_go_underscore x :
  ∀ s, occurs "_"%char s = false → occurs "_"%char (pretty_N_go x s) = false.
Proof.
  induction (N.lt_wf_0 x) as [x _ IH]. intros s Hs.
  assert (x = 0 ∨ 0 < x)%N as [->|Hx] by lia; [done|].
  rewrite pretty_N_go_step by done. apply IH; [by apply N.div_lt|].
  simpl. rewrite Hs, orb_false_r. unfold pretty_N_char.
  by repeat case_match.
Qed.

Lemma pretty_Z_underscore (z : Z) : occurs "_"%char (pretty z) = false.
Proof.
  assert (∀ n : N, occurs "_"%char (pretty n) = false) as HN.
  { intros n. unfold pretty, pretty_N. case_decide; [done|].
    by apply pretty_N_go_underscore. }
  destruct z as [|x|x]; [done|apply HN|].
  unfold pretty, pretty_Z. rewrite occurs_app. apply HN.
Qed.

Lemma underscore_split c1 :
  ∀ c2 x1 x2,
    occurs "_"%char x1 = false → occurs "_"%char x2 = false →
    c1 +:+ "_" +:+ x1 = c2 +:+ "_" +:+ x2 → c1 = c2.
Proof.
  assert (∀ c x, occurs "_"%char (c +:+ "_" +:+ x) = true) as Hocc.
  { intros c x. rewrite !occurs_app. simpl. by rewrite orb_true_r. }
  induction c1 as [|a c1 IH]; intros [|a' c2] x1 x2 H1 H2 E; [done|..].
  - injection E as _ E. change ("" +:+ x1) with x1 in E. subst x1.
    by rewrite Hocc in H1.
  - injection E as _ E. change ("" +:+ x2) with x2 in E. subst x2.
    by rewrite Hocc in H2.
  - injection E as -> E. f_equal. exact (IH c2 x1 x2 H1 H2 E).
Qed.

(** The files of two chromosomes are different files. *)
Lemma level_path_chrom folder c1 c2 b1 b2 :
  level_path folder c1 b1 = level_path folder c2 b2 → c1 = c2.
Proof.
  unfold level_path. intros E.
  do 2 apply (inj (String.append _)) in E.
  eapply underscore_split; [| |exact E]; apply pretty_Z_underscore.
Qed.

Lemma foldl_append_prefix (ch : Level → list encoded) ls g :
  ∀ w c, w !! g = Some c →
    ∃ more, foldl (λ w l, append_chunks (path_of l) (ch l) w) w ls !! g
            = Some (c ++ more).
Proof.
  induction ls as [|l ls IH]; intros w c Hc; simpl.
  - exists []. by rewrite app_nil_r.
  - destruct (decide (g = path_of l)) as [->|Hne].
    + destruct (IH (append_chunks (path_of l) (ch l) w) (c ++ ch l))
        as [more Hm]; [by apply append_chunks_eq|].
      exists (ch l ++ more). by rewrite app_assoc.
    + apply IH. by rewrite append_chunks_ne.
Qed.

(** C7: when the lines before [r] are processed without error and the
    chromosome of [r] is not that of the line before it but that of an
    earlier line, the script raises 'File should be ordered by chromosome'
    at [r], whatever follows. *)
Theorem repeated_chromosome_raises (categories : list string)
    (other : option nat) (start factor maxsize : Z) (fuel : nat)
    (pre : list record) (r0 r : record) (rest : list record)
    (d : Driver) w0 w1 :
  main_loop perform categories other start factor maxsize fuel pre driver0 w0
  = Ok d w1 →
  last pre = Some r0 → label r0 ≠ label r → label r ∈ label <$> pre →
  ∃ w,
    main_loop perform categories other start factor maxsize fuel
      (pre ++ [r]) driver0 w0
    = Raise (Exception "File should be ordered by chromosome") w
    ∧ driver perform categories other start factor maxsize fuel
        (pre ++ r :: rest) w0
      = Raise (Exception "File should be ordered by chromosome") w.
Proof.
  intros H Hlast Hne Hin.
  destruct (repeated_label _ _ _ _ _ _ _ _ _ _ _ _ H Hlast Hne Hin)
    as (_ & _ & _ & _ & w3 & _ & _ & _ & _ & Hraise).
  exists w3. split; [apply Hraise|].
  unfold driver. by rewrite (bind_Raise _ _ _ _ _ (Hraise rest)).
Qed.

(** C3, as amended: when the script raises 'File should be ordered by
    chromosome' at [r], the pyramid that was active has been finalised
    first, and the store at the error is the one [Finalise] left but for the
    files of the chromosome of [r]: a file of any other chromosome still
    starts with the blocks it held before. *)
Theorem finalised_before_repeat_error (categories : list string)
    (other : option nat) (start factor maxsize : Z) (fuel : nat)
    (pre : list record) (r0 r : record) (rest : list record)
    (d : Driver) w0 w1 :
  main_loop perform categories other start factor maxsize fuel pre driver0 w0
  = Ok d w1 →
  last pre = Some r0 → label r0 ≠ label r → label r ∈ label <$> pre →
  ∃ s s' w2 w3,
    summariser d = Some s
    ∧ chromosome s = label r0
    ∧ Finalise perform s w1 = Ok s' w2
    ∧ driver perform categories other start factor maxsize fuel
        (pre ++ r :: rest) w0
      = Raise (Exception "File should be ordered by chromosome") w3
    ∧ (∀ c b, c ≠ label r →
         w3 !! level_path outputdir c b = w2 !! level_path outputdir c b)
    ∧ (∀ c b blocks,
         c ≠ label r → w1 !! level_path outputdir c b = Some blocks →
         ∃ more, w3 !! level_path outputdir c b = Some (blocks ++ more)).
Proof.
  intros H Hlast Hne Hin.
  destruct (repeated_label _ _ _ _ _ _ _ _ _ _ _ _ H Hlast Hne Hin)
    as (s & s' & w2 & snew & w3 & Hs & Hchr & Hfin & Hinit & Hraise).
  exists s, s', w2, w3. repeat split; [done..| | |].
  - unfold driver. by rewrite (bind_Raise _ _ _ _ _ (Hraise rest)).
  - intros c b Hc. apply init_Ok_inv in Hinit as (_ & _ & Hframe & _).
    apply Hframe. intros b' E. by apply level_path_chrom in E.
  - intros c b blocks Hc Hb.
    apply init_Ok_inv in Hinit as (_ & _ & Hframe & _).
    rewrite Hframe by (intros b' E; by apply level_path_chrom in E).
    destruct (main_loop_inv _ _ _ _ _ _ _ _ _ _ H) as [_ Hl].
    rewrite Hlast in Hl. destruct Hl as (_ & s1 & Hs1 & _ & Hcl & _).
    rewrite Hs in Hs1. injection Hs1 as <-.
    rewrite (Finalise_spec s w1 Hcl) in Hfin. injection Hfin as _ <-.
    by apply (foldl_append_prefix (λ l, [perform (catcounts l)])).
Qed.

(** [Add] leaves [lastpos] as it finds it. *)
Lemma Add_keeps_lastpos categories other fuel pos val s w s' w' :
  Add perform categories other fuel pos val s w = Ok s' w' →
  lastpos s' = lastpos s.
Proof. by intros (_ & ? & _)%Add_Ok_inv. Qed.

(** ** A value without an index *)



(** ** One chromosome through the main loop *)

Lemma main_loop_same_chromosome categories other start factor maxsize fuel
    chrom :
  ∀ recs s seen n w,
    main_loop perform categories other start factor maxsize fuel
      ((λ r : Z * string, (chrom, r.1, r.2)) <$> recs)
      (MkDriver chrom (Some s) seen n) w
    = bind (for_fold (λ s r, Add perform categories other fuel r.1 r.2 s)
              recs s)
        (λ s', ret (MkDriver chrom (Some s') seen
                      (n + Z.of_nat (length recs)))) w.
Proof.
  induction recs as [|r recs IH]; intros s seen n w.
  - simpl. unfold bind, ret. simpl. do 2 f_equal. lia.
  - unfold main_loop in *. rewrite fmap_cons. cbn [for_fold].
    unfold step at 1.
    cbn [fst snd currentChromosome summariser processedChromosomes linecount].
    rewrite decide_True by done. unfold bind, ret.
    cbn [fst snd currentChromosome summariser processedChromosomes linecount].
    destruct (Add perform categories other fuel r.1 r.2 s w)
      as [s1 w1| |]; [|done..].
    rewrite IH. unfold bind, ret.
    destruct (for_fold _ recs s1 w1); [|done..].
    do 2 f_equal. cbn [length]. lia.
Qed.

(** The main loop on the records of one chromosome is [run_chromosome]. *)
Lemma driver_one_chromosome categories other start factor maxsize fuel
    chrom r recs w :
  chrom ≠ ""%string →
  driver perform categories other start factor maxsize fuel
    ((λ r : Z * string, (chrom, r.1, r.2)) <$> (r :: recs)) w
  = bind (run_chromosome perform categories other fuel chrom start factor
            maxsize outputdir (r :: recs))
      (λ s, ret (MkDriver chrom (Some s) {[chrom := true]}
                   (Z.of_nat (length (r :: recs))))) w.
Proof.
  intros Hne. unfold driver, run_chromosome, main_loop.
  rewrite fmap_cons. cbn [for_fold]. unfold step at 1.
  cbn [fst snd currentChromosome summariser processedChromosomes linecount
       driver0].
  rewrite decide_False by done. unfold switch_chromosome.
  cbn [fst snd currentChromosome summariser processedChromosomes linecount].
  unfold bind, ret.
  destruct (init categories fuel chrom start factor maxsize outputdir w)
    as [s0 w0| |]; [|done..].
  rewrite lookup_empty, decide_False by (by intros []).
  cbn [fst snd currentChromosome summariser processedChromosomes linecount].
  destruct (Add perform categories other fuel r.1 r.2 s0 w0)
    as [s1 w1| |]; [|done..].
  pose proof (main_loop_same_chromosome categories other start factor
                maxsize fuel chrom recs s1 (<[chrom:=true]> ∅) (0 + 1) w1)
    as E.
  unfold main_loop in E. rewrite E. unfold bind, ret.
  destruct (for_fold _ recs s1 w1) as [s2 w2| |]; [|done..].
  cbn [fst snd currentChromosome summariser processedChromosomes linecount].
  destruct (Finalise perform s2 w2); [|done..].
  do 2 f_equal. cbn [length]. lia.
Qed.

(** ** The category map *)

Lemma categorymap_of_snoc (l : list string) (x : string) :
  categorymap_of (l ++ [x]) = <[x := length l]> (categorymap_of l).
Proof.
  unfold categorymap_of. rewrite imap_app, foldl_app. simpl.
  by rewrite Nat.add_0_r.
Qed.

(** X1: the category map sends a label to the index of its last occurrence
    in the list, and holds exactly the labels of the list. *)
Theorem categorymap_last_index (categories : list string) (c : string)
    (i : nat) :
  categorymap categories !! c = Some i
  ↔ categories !! i = Some c
    ∧ ∀ j, (i < j)%nat → categories !! j ≠ Some c.
Proof.
  unfold categorymap. revert i.
  induction categories as [|x l IH] using rev_ind; intros i.
  - unfold categorymap_of. simpl. rewrite lookup_empty. split; [done|].
    by intros [? _].
  - rewrite categorymap_of_snoc.
    assert (Hk : ∀ k, c ≠ x → (l ++ [x]) !! k = Some c ↔ l !! k = Some c).
    { intros k Hne. destruct (decide (k < length l)%nat) as [Hlt|Hge].
      - by rewrite lookup_app_l.
      - rewrite lookup_app_r by lia. rewrite (lookup_ge_None_2 l k) by lia.
        split; [|done]. destruct (k - length l)%nat; [|done].
        intros [= ->]. done. }
    destruct (decide (c = x)) as [->|Hne].
    + rewrite lookup_insert_eq. split.
      * intros [= <-]. split.
        -- by rewrite lookup_app_r, Nat.sub_diag by lia.
        -- intros j Hj. rewrite lookup_ge_None_2; [done|].
           rewrite length_app. simpl. lia.
      * intros [Hi Hlast]. f_equal.
        apply lookup_lt_Some in Hi. rewrite length_app in Hi. simpl in Hi.
        destruct (decide (i < length l)%nat) as [Hlt|]; [|lia].
        destruct (Hlast (length l) Hlt).
        by rewrite lookup_app_r, Nat.sub_diag by lia.
    + rewrite lookup_insert_ne by done. rewrite IH, (Hk i Hne).
      split; intros [Hi Hlast]; (split; [done|]); intros j Hj.
      * rewrite (Hk j Hne). by apply Hlast.
      * rewrite <- (Hk j Hne). by apply Hlast.
Qed.

(** ** What can go wrong *)

(** X2: a data file whose first line has an empty chromosome field ends the
    script with [AttributeError] before any file is opened: the label equals
    the initial [currentChromosome], so no [Summariser] is made. *)
Theorem empty_label_first (categories : list string) (other : option nat)
    (start factor maxsize : Z) (fuel : nat) (pos : Z) (val : string)
    (rest : list record) w :
  driver perform categories other start factor maxsize fuel
    (("", pos, val)%string :: rest) w
  = Raise AttributeError w.
Proof. reflexivity. Qed.

Lemma Finalise_Ok_inv s w s' w' :
  Finalise perform s w = Ok s' w' → levels s' = finalised <$> levels s.
Proof.
  unfold Finalise. intros (ls & w1 & H & [= <- _])%bind_Ok_inv. simpl.
  eapply (for_each_Ok_inv _ (λ l l', l' = finalised l)) in H.
  - induction H as [|???? ->]; simpl; [done|]. by f_equal.
  - intros l w2 l' w2'. unfold Finalise_level.
    by intros (_ & w3 & _ & [= <- _])%bind_Ok_inv.
Qed.

(** X3: [Finalise] leaves every file of the pyramid closed, and a pyramid
    with a level cannot be finalised again: the second call raises
    [ValueError] at the first write and leaves the files as they are. *)
Theorem Finalise_once (s : Summariser) w s' w' :
  Finalise perform s w = Ok s' w' →
  Forall (λ l, closed (outputfile l) = true) (levels s')
  ∧ (levels s ≠ [] → Finalise perform s' w' = Raise ValueError w').
Proof.
  intros H. apply Finalise_Ok_inv in H. split.
  - rewrite H. apply Forall_fmap, Forall_forall. by intros.
  - intros Hne. unfold Finalise. rewrite H.
    destruct (levels s) as [|l ls]; [done|]. reflexivity.
Qed.

Lemma build_levels_no_raise categories fuel chrom folder factor maxsize :
  ∀ bs acc w e w',
    build_levels categories fuel chrom folder factor maxsize bs acc w
    ≠ Raise e w'.
Proof.
  induction fuel as [|fuel IH]; intros bs acc w e w'; simpl; [done|].
  destruct (bs <=? maxsize); [|done]. unfold bind, py_open. apply IH.
Qed.

Lemma close_blocks_no_raise categories fuel pos :
  ∀ l w e w',
    closed (outputfile l) = false →
    close_blocks perform categories fuel pos l w ≠ Raise e w'.
Proof.
  induction fuel as [|fuel IH]; intros l w e w' Hcl; simpl; [done|].
  destruct (pos >=? currentblockend l); [|done].
  unfold bind, CloseCurrentBlock, write. rewrite Hcl. by apply IH.
Qed.

Lemma close_blocks_length categories fuel pos :
  ∀ l w l' w',
    length (catcounts l) = length categories →
    close_blocks perform categories fuel pos l w = Ok l' w' →
    length (catcounts l') = length categories.
Proof.
  induction fuel as [|fuel IH]; intros l w l' w' Hlen H; simpl in H; [done|].
  destruct (pos >=? currentblockend l).
  - apply bind_Ok_inv in H as (_ & w1 & _ & H). eapply IH; [|exact H].
    simpl. apply length_replicate.
  - by injection H as <- _.
Qed.

(** A level in order never makes [Add] raise. *)
Lemma Add_level_no_raise categories other fuel pos val l w e w' :
  other_ok categories other →
  closed (outputfile l) = false →
  length (catcounts l) = length categories →
  Add_level perform categories other fuel pos val l w ≠ Raise e w'.
Proof.
  intros Ho Hcl Hlen. unfold Add_level, bind.
  destruct (close_blocks perform categories fuel pos l w) as [l1 w1|e1 w1|]
    eqn:E; [| |done].
  - apply close_blocks_length in E; [|done].
    assert (∀ k, (k < length categories)%nat →
              increment k l1 w1 ≠ Raise e w') as Hinc.
    { intros k Hk. unfold increment.
      destruct (lookup_lt_is_Some_2 (catcounts l1) k ltac:(lia)) as [c ->].
      done. }
    destruct (categorymap categories !! val) as [k|] eqn:Ek.
    + apply Hinc. by eapply categorymap_lt.
    + destruct other as [k|]; [|done]. apply Hinc. by apply Ho.
  - by apply close_blocks_no_raise in E.
Qed.

(** The [while] loop of [Add] does not end on a level whose width is not
    positive, once the position has reached the end of its block. *)
Lemma close_blocks_loops categories fuel pos :
  ∀ l w,
    blocksize l ≤ 0 → currentblockend l ≤ pos →
    closed (outputfile l) = false →
    close_blocks perform categories fuel pos l w = OutOfFuel.
Proof.
  induction fuel as [|fuel IH]; intros l w Hbs Hend Hcl; simpl; [done|].
  rewrite (proj2 (Z.geb_le _ _) Hend).
  unfold bind, CloseCurrentBlock, write. rewrite Hcl.
  apply IH; simpl; [done|lia|done].
Qed.

(** X4: with a negative factor the script produces nothing.  Either
    [__init__] runs for ever, or its second level has a negative width and
    the first [Add] at a position from 0 on runs for ever in that level. *)
Theorem negative_factor_never_returns (categories : list string)
    (other : option nat) (chrom folder : string) (start factor maxsize : Z)
    (pos : Z) (val : string) (recs : list (Z * string)) w :
  1 ≤ start → start ≤ maxsize → factor ≤ -1 →
  other_ok categories other → 0 ≤ pos →
  ∀ fuel,
    run_chromosome perform categories other fuel chrom start factor maxsize
      folder ((pos, val) :: recs) w = OutOfFuel.
Proof.
  intros Hs Hm Hf Ho Hpos fuel. unfold run_chromosome, init, bind.
  destruct (build_levels categories fuel chrom folder factor maxsize start []
              w) as [ls w0|e w0|] eqn:E; [| |done].
  2: { by apply build_levels_no_raise in E. }
  apply build_levels_inv in E as (n & -> & _ & Hall & Hn).
  destruct n as [|[|n]]; simpl in Hn; [lia|nia|].
  simpl. unfold Add. simpl. rewrite (proj2 (Z.leb_gt _ _)) by lia.
  unfold bind.
  destruct (Add_level perform categories other fuel pos val
              (fresh_level categories folder chrom start) w0)
    as [l1 w1|e1 w1|] eqn:E1; [| |done].
  2: { apply Add_level_no_raise in E1; [done..|].
       simpl. apply length_replicate. }
  unfold Add_level at 1. unfold bind.
  rewrite close_blocks_loops; [done|simpl; nia..|done].
Qed.

(** Only the position check of [Add] raises its message. *)
Lemma Add_level_raises categories other fuel pos val l w e w' :
  Add_level perform categories other fuel pos val l w = Raise e w' →
  e = IndexError ∨ e = ValueError.
Proof.
  assert (Hcb : ∀ fuel l w e w',
            close_blocks perform categories fuel pos l w = Raise e w' →
            e = ValueError).
  { clear. induction fuel as [|fuel IH]; intros l w e w' H; simpl in H;
      [done|].
    destruct (pos >=? currentblockend l); [|done].
    unfold bind, CloseCurrentBlock, write in H.
    destruct (closed (outputfile l)); [by injection H as <- _|].
    by eapply IH. }
  assert (Hinc : ∀ k l w, increment k l w = Raise e w' → e = IndexError).
  { intros k l0 w0. unfold increment. destruct (_ !! k); [done|].
    by intros [= <- _]. }
  unfold Add_level, bind.
  destruct (close_blocks perform categories fuel pos l w) as [l1 w1|e1 w1|]
    eqn:E; [| |done].
  - destruct (categorymap categories !! val); [left; by eapply Hinc|].
    destruct other; [left; by eapply Hinc|done].
  - intros [= <- _]. right. by eapply Hcb.
Qed.

Lemma for_each_raises {A B} (f : A → M B) (Q : exn → Prop) :
  (∀ x w e w', f x w = Raise e w' → Q e) →
  ∀ ls w e w', for_each f ls w = Raise e w' → Q e.
Proof.
  intros Hf. induction ls as [|x ls IH]; intros w e w' H; simpl in H; [done|].
  unfold bind in H. destruct (f x w) as [y w1|e1 w1|] eqn:E; [| |done].
  - destruct (for_each f ls w1) as [ys w2|e2 w2|] eqn:E2; [done| |done].
    injection H as <- _. by eapply IH.
  - injection H as <- _. by eapply Hf.
Qed.

Lemma Add_raises_position categories other fuel pos val s w w' :
  Add perform categories other fuel pos val s w
  = Raise (Exception "Positions should be strictly ordered") w' →
  pos ≤ lastpos s.
Proof.
  unfold Add. destruct (pos <=? lastpos s) eqn:E; [by apply Z.leb_le in E|].
  unfold bind.
  destruct (for_each _ (levels s) w) as [ls w1|e1 w1|] eqn:E1; [done| |done].
  intros [= -> _].
  apply (for_each_raises _ (λ e, e = IndexError ∨ e = ValueError)) in E1
    as [?|?]; [done..|].
  intros ????. apply Add_level_raises.
Qed.

Lemma Finalise_raises s w e w' :
  Finalise perform s w = Raise e w' → e = ValueError.
Proof.
  unfold Finalise, bind.
  destruct (for_each (Finalise_level perform) (levels s) w)
    as [ls w1|e1 w1|] eqn:E; [done| |done].
  intros [= <- _].
  apply (for_each_raises _ (λ e, e = ValueError)) in E; [done|].
  intros l w2 e2 w3. unfold Finalise_level, bind, CloseCurrentBlock, write.
  destruct (closed (outputfile l)); [|done]. by intros [= <- _].
Qed.

Lemma main_loop_lastpos categories other start factor maxsize fuel w0 :
  ∀ pre d w s,
    main_loop perform categories other start factor maxsize fuel pre
      driver0 w0 = Ok d w →
    summariser d = Some s → lastpos s = -1.
Proof.
  induction pre as [|[[chrom pos] val] pre IH] using rev_ind;
    intros d w s H Hs.
  - by injection H as <- _.
  - unfold main_loop in H. rewrite for_fold_app in H.
    apply bind_Ok_inv in H as (d1 & w1 & H1 & H). simpl in H.
    apply bind_Ok_inv in H as (d2 & w2 & H & [= <- <-]).
    apply step_Ok_inv in H
      as [(_ & s0 & s' & Hs0 & Hadd & ->)
         |(_ & _ & w3 & s0 & w4 & s' & Hinit & Hadd & ->)];
      simpl in Hs; injection Hs as <-;
      apply Add_keeps_lastpos in Hadd; rewrite Hadd.
    + by eapply IH.
    + unfold init in Hinit.
      by apply bind_Ok_inv in Hinit as (ls & w5 & _ & [= <- _]).
Qed.

Lemma bind_Raise_inv {A B} (m : M A) (k : A → M B) w e w2 :
  bind m k w = Raise e w2 →
  m w = Raise e w2 ∨ ∃ a w1, m w = Ok a w1 ∧ k a w1 = Raise e w2.
Proof. unfold bind. destruct (m w); naive_solver. Qed.

Lemma init_no_raise categories fuel chrom start factor maxsize folder w e w' :
  init categories fuel chrom start factor maxsize folder w ≠ Raise e w'.
Proof.
  unfold init. intros [H|(ls & w1 & _ & H)]%bind_Raise_inv; [|done].
  by apply build_levels_no_raise in H.
Qed.

Lemma switch_chromosome_raises categories start factor maxsize fuel chrom d
    w e w' :
  switch_chromosome perform categories start factor maxsize fuel chrom d w
  = Raise e w' →
  e = ValueError ∨ e = Exception "File should be ordered by chromosome".
Proof.
  unfold switch_chromosome.
  intros [H|(_ & w1 & _ & H)]%bind_Raise_inv.
  - left. destruct (summariser d) as [s|]; [|done].
    apply bind_Raise_inv in H as [H|(? & ? & _ & H)]; [|done].
    by apply Finalise_raises in H.
  - apply bind_Raise_inv in H as [H|(s & w2 & _ & H)].
    + by apply init_no_raise in H.
    + destruct (decide (is_Some (processedChromosomes d !! chrom)));
        [|done].
      injection H as <- _. by right.
Qed.

Lemma switch_chromosome_lastpos categories start factor maxsize fuel chrom d
    w d' w' s :
  switch_chromosome perform categories start factor maxsize fuel chrom d w
  = Ok d' w' →
  summariser d' = Some s → lastpos s = -1.
Proof.
  unfold switch_chromosome.
  intros (_ & w1 & _ & H)%bind_Ok_inv.
  apply bind_Ok_inv in H as (s0 & w2 & Hi & H).
  destruct (decide (is_Some (processedChromosomes d !! chrom))); [done|].
  injection H as <- _. simpl. intros [= <-].
  unfold init in Hi. by apply bind_Ok_inv in Hi as (ls & w3 & _ & [= <- _]).
Qed.

(** X5: the script raises 'Positions should be strictly ordered' only at a
    line with a negative position; no order of positions from 0 on is
    rejected. *)
Theorem position_error_only_negative (categories : list string)
    (other : option nat) (start factor maxsize : Z) (fuel : nat)
    (lines : list record) w0 w :
  driver perform categories other start factor maxsize fuel lines w0
  = Raise (Exception "Positions should be strictly ordered") w →
  Exists (λ line, line.1.2 ≤ -1) lines.
Proof.
  unfold driver. intros [E|(d & w1 & _ & E)]%bind_Raise_inv.
  2: { destruct (summariser d) as [s|]; [|done].
       apply bind_Raise_inv in E as [E|(? & ? & _ & E)]; [|done].
       by apply Finalise_raises in E. }
  revert w E.
  induction lines as [|[[chrom pos] val] pre IH] using rev_ind; intros w E;
    [done|].
  apply Exists_app. unfold main_loop in E. rewrite for_fold_app in E.
  apply bind_Raise_inv in E as [E|(d & w1 & E1 & E)]; [left; by eapply IH|].
  right. constructor. simpl.
  assert (Hlast : ∀ s, summariser d = Some s → lastpos s = -1)
    by (intros s; by eapply main_loop_lastpos).
  cbn [for_fold] in E. apply bind_Raise_inv in E as [E|(? & ? & _ & E)];
    [|done].
  unfold step in E. apply bind_Raise_inv in E as [E|(d1 & w2 & E2 & E)].
  - destruct (decide _) in E; [done|].
    by apply switch_chromosome_raises in E as [?|?].
  - assert (Hlast1 : ∀ s, summariser d1 = Some s → lastpos s = -1).
    { intros s Hs. destruct (decide _) in E2.
      - injection E2 as <- _. by apply Hlast.
      - by eapply switch_chromosome_lastpos. }
    destruct (summariser d1) as [s|]; [|done].
    apply bind_Raise_inv in E as [E|(? & ? & _ & E)]; [|done].
    apply Add_raises_position in E. rewrite (Hlast1 s eq_refl) in E. done.
Qed.

(** ** The shape of the blocks *)

Lemma counts_ok_zero categories :
  counts_ok categories (replicate (length categories) 0).
Proof.
  split; [apply length_replicate|]. apply Forall_forall.
  intros x ->%elem_of_replicate_inv. done.
Qed.

Lemma counts_ok_bump categories o counts :
  counts_ok categories counts → counts_ok categories (bump o counts).
Proof.
  intros [Hlen Hpos]. unfold bump. destruct o as [k|]; [|done].
  destruct (counts !! k) as [c|] eqn:E; [|done]. split.
  - by rewrite length_insert.
  - apply Forall_insert; [done|].
    rewrite Forall_lookup in Hpos. specialize (Hpos k c E). simpl in Hpos. lia.
Qed.

Lemma well_shaped_step categories other r l c :
  well_shaped perform categories l c →
  well_shaped perform categories
    (bump_level (resolve categories other r.2)
       (close_n categories (blocks_due r.1 l) l))
    (c ++ chunks_n perform categories (blocks_due r.1 l) l).
Proof.
  intros (Hc & blocks & -> & Hb).
  destruct (close_n_fields categories (blocks_due r.1 l) l)
    as (_ & _ & _ & E).
  rewrite chunks_n_eq. unfold well_shaped, bump_level. cbn [catcounts].
  rewrite E. destruct (blocks_due r.1 l) as [|n].
  - split; [by apply counts_ok_bump|]. exists blocks.
    by rewrite app_nil_r.
  - split; [apply counts_ok_bump, counts_ok_zero|].
    exists (blocks ++ catcounts l
                      :: replicate n (replicate (length categories) 0)).
    split; [by rewrite fmap_app, fmap_cons, fmap_replicate|].
    apply Forall_app. split; [done|]. constructor; [done|].
    apply Forall_forall. intros x ->%elem_of_replicate_inv.
    apply counts_ok_zero.
Qed.

(** X6: every file of a chromosome ends up with at least one block, and
    each block encodes a vector of one count per category, none negative. *)
Theorem blocks_well_shaped (categories : list string) (other : option nat)
    (fuel : nat) (chrom folder : string) (start factor maxsize : Z)
    (recs : list (Z * string)) w :
  1 ≤ start → 1 < factor → other_ok categories other →
  Forall (λ r, 0 ≤ r.1) recs →
  (Z.to_nat (maxsize - start + 1) < fuel)%nat →
  Forall (λ r, (Z.to_nat r.1 < fuel)%nat) recs →
  ∃ s w',
    run_chromosome perform categories other fuel chrom start factor maxsize
      folder recs w = Ok s w'
    ∧ Forall (λ l, ∃ blocks,
                 w' !! path_of l = Some (perform <$> blocks)
                 ∧ blocks ≠ []
                 ∧ Forall (counts_ok categories) blocks)
        (levels s).
Proof.
  intros Hs Hf Ho Hrecs Hfuel Hfuels. unfold run_chromosome.
  destruct (init_spec categories fuel chrom folder start factor maxsize w
              Hs Hf Hfuel) as (s0 & w0 & H0 & Hinv0 & Hl0 & _ & _ & _).
  rewrite (bind_Ok _ _ _ _ _ H0).
  destruct (records_inv categories other fuel
              (λ _, well_shaped perform categories) (λ _ _, True) Ho
              ltac:(intros; by apply well_shaped_step) recs s0 w0)
    as (s1 & w1 & H1 & Hinv1 & _ & _ & _ & _).
  { eapply pyramid_inv_impl; [|exact Hinv0].
    intros l c _ (-> & _ & Hc). unfold well_shaped. rewrite Hc. split.
    - apply counts_ok_zero.
    - by exists []. }
  { done. }
  { intros pre r post ->.
    apply Forall_app in Hrecs as [_ [? _]%Forall_cons].
    by apply Forall_app in Hfuels as [_ [? _]%Forall_cons]. }
  rewrite (bind_Ok _ _ _ _ _ H1).
  destruct (Finalise_inv categories _ s1 w1 Hinv1)
    as (s2 & w2 & H2 & Hs2 & Hall & _).
  exists s2, w2. split; [done|]. rewrite Hs2.
  apply Forall_fmap. eapply Forall_impl; [exact Hall|].
  intros l (c & _ & (Hc & blocks & -> & Hb) & Hw). simpl.
  exists (blocks ++ [catcounts l]). repeat split.
  - by rewrite fmap_app.
  - by destruct blocks.
  - apply Forall_app. split; [done|]. by constructor.
Qed.

(** ** Several chromosomes *)

Lemma build_levels_sizes categories fuel chrom folder factor maxsize :
  ∀ bs acc w ls w',
    build_levels categories fuel chrom folder factor maxsize bs acc w
    = Ok ls w' →
    ls = acc ++ (fresh_level categories folder chrom
                   <$> sizes_upto fuel factor maxsize bs).
Proof.
  induction fuel as [|fuel IH]; intros bs acc w ls w' H; simpl in *; [done|].
  destruct (bs <=? maxsize).
  - unfold bind, py_open in H. apply IH in H as ->. by rewrite <- app_assoc.
  - injection H as <- _. by rewrite app_nil_r.
Qed.

Lemma init_sizes categories fuel chrom start factor maxsize folder w s w' :
  init categories fuel chrom start factor maxsize folder w = Ok s w' →
  levels s = fresh_level categories folder chrom
               <$> sizes_upto fuel factor maxsize start.
Proof.
  unfold init. intros (ls & w1 & H & [= <- _])%bind_Ok_inv.
  by apply build_levels_sizes in H.
Qed.

Lemma level_after_snoc categories other recs r l0 :
  level_after perform categories other (recs ++ [r]) l0
  = (bump_level (resolve categories other r.2)
       (close_n categories
          (blocks_due r.1 (level_after perform categories other recs l0).1)
          (level_after perform categories other recs l0).1),
     (level_after perform categories other recs l0).2
     ++ chunks_n perform categories
          (blocks_due r.1 (level_after perform categories other recs l0).1)
          (level_after perform categories other recs l0).1).
Proof. unfold level_after. by rewrite foldl_snoc. Qed.

Lemma level_after_fields categories other recs l0 :
  blocksize (level_after perform categories other recs l0).1 = blocksize l0
  ∧ outputfile (level_after perform categories other recs l0).1
    = outputfile l0.
Proof.
  induction recs as [|r recs IH] using rev_ind; [done|].
  rewrite level_after_snoc. cbn [fst bump_level blocksize outputfile].
  destruct (close_n_fields categories
              (blocks_due r.1 (level_after perform categories other recs l0).1)
              (level_after perform categories other recs l0).1)
    as (-> & -> & _).
  done.
Qed.

Lemma traced_path categories other folder chrom recs l c :
  traced perform categories other folder chrom recs l c →
  path_of l = level_path folder chrom (blocksize l).
Proof.
  unfold traced. intros H.
  destruct (level_after_fields categories other recs
              (fresh_level categories folder chrom (blocksize l)))
    as [_ E].
  rewrite H in E. unfold path_of. simpl in E. by rewrite E.
Qed.

Lemma traced_step categories other folder chrom recs r l c :
  traced perform categories other folder chrom recs l c →
  traced perform categories other folder chrom (recs ++ [r])
    (bump_level (resolve categories other r.2)
       (close_n categories (blocks_due r.1 l) l))
    (c ++ chunks_n perform categories (blocks_due r.1 l) l).
Proof.
  unfold traced. intros H. cbn [bump_level blocksize].
  destruct (close_n_fields categories (blocks_due r.1 l) l) as (-> & _).
  by rewrite level_after_snoc, H.
Qed.

Lemma pyramid_inv_and categories (P : Level → list encoded → Prop)
    (R : Level → Prop) s w :
  pyramid_inv categories P s w → Forall R (levels s) →
  pyramid_inv categories (λ l c, P l c ∧ R l) s w.
Proof.
  intros [Hnd Hall] HR. split; [done|].
  apply Forall_forall. intros l Hl. rewrite Forall_forall in Hall, HR.
  destruct (Hall l Hl) as (Hok & c & Hc & HP). split; [done|].
  exists c. auto.
Qed.

(** A pyramid from [__init__] through the records of its chromosome. *)
Lemma init_then_records categories other fuel chrom folder start factor
    maxsize recs w :
  1 ≤ start → 1 < factor → other_ok categories other →
  Forall (λ r, 0 ≤ r.1 ∧ (Z.to_nat r.1 < fuel)%nat) recs →
  (Z.to_nat (maxsize - start + 1) < fuel)%nat →
  ∃ s0 w0 s1 w1,
    init categories fuel chrom start factor maxsize folder w = Ok s0 w0
    ∧ for_fold (λ s r, Add perform categories other fuel r.1 r.2 s) recs s0 w0
      = Ok s1 w1
    ∧ pyramid_inv categories
        (traced perform categories other folder chrom recs) s1 w1
    ∧ blocksize <$> levels s1 = sizes_upto fuel factor maxsize start
    ∧ ∀ g, (∀ b, g ≠ level_path folder chrom b) → w1 !! g = w !! g.
Proof.
  intros Hs Hf Ho Hrecs Hfuel.
  destruct (init_spec categories fuel chrom folder start factor maxsize w
              Hs Hf Hfuel) as (s0 & w0 & H0 & Hinv0 & Hl0 & _ & Hp0 & Hfr0).
  pose proof (init_sizes _ _ _ _ _ _ _ _ _ _ H0) as Hsz.
  assert (Hb0 : blocksize <$> levels s0 = sizes_upto fuel factor maxsize start).
  { rewrite Hsz, <- list_fmap_compose.
    rewrite <- (list_fmap_id (sizes_upto fuel factor maxsize start)) at 2.
    by apply list_fmap_ext. }
  destruct (records_inv categories other fuel
              (traced perform categories other folder chrom)
              (λ _ _, True) Ho
              ltac:(intros; by apply traced_step) recs s0 w0)
    as (s1 & w1 & H1 & Hinv1 & _ & Hp1 & Hb1 & Hfr1).
  { eapply pyramid_inv_impl;
      [|apply (pyramid_inv_and _ _
                 (λ l, l = fresh_level categories folder chrom (blocksize l))
                 _ _ Hinv0)].
    - intros l c _ [(-> & _) E]. unfold traced. simpl. by rewrite <- E.
    - rewrite Hsz. apply Forall_fmap, Forall_forall. by intros. }
  { done. }
  { intros pre r post ->.
    by apply Forall_app in Hrecs as [_ [[? ?] _]%Forall_cons]. }
  exists s0, w0, s1, w1. repeat split; [done|done|apply Hinv1..|congruence|].
  intros g Hg.
  assert (g ∉ path_of <$> levels s0).
  { rewrite Hp0. intros (b & -> & _)%list_elem_of_fmap. by apply (Hg b). }
  by rewrite Hfr1, Hfr0.
Qed.

(** [Finalise] completes the files of such a pyramid. *)
Lemma Finalise_traced categories other folder chrom recs sizes s w :
  pyramid_inv categories (traced perform categories other folder chrom recs)
    s w →
  blocksize <$> levels s = sizes →
  ∃ s' w',
    Finalise perform s w = Ok s' w'
    ∧ levels s' = finalised <$> levels s
    ∧ (∀ b, b ∈ sizes →
         w' !! level_path folder chrom b
         = Some (level_output perform categories other folder chrom b recs))
    ∧ ∀ g, (∀ b, g ≠ level_path folder chrom b) → w' !! g = w !! g.
Proof.
  intros Hinv <-.
  destruct (Finalise_inv categories _ s w Hinv)
    as (s' & w' & H & Hs' & Hall & Hfr).
  exists s', w'. repeat split; [done..| |].
  - intros b (l & -> & Hl)%list_elem_of_fmap.
    rewrite Forall_forall in Hall.
    destruct (Hall l Hl) as (c & _ & Htr & Hw).
    rewrite <- (traced_path _ _ _ _ _ _ _ Htr), Hw.
    unfold level_output. unfold traced in Htr. by rewrite Htr.
  - intros g Hg. apply Hfr. intros (l & -> & Hl)%list_elem_of_fmap.
    destruct Hinv as [_ Hall']. rewrite Forall_forall in Hall'.
    destruct (Hall' l Hl) as (_ & c & _ & Htr).
    by apply (Hg (blocksize l)), (traced_path _ _ _ _ _ _ _ Htr).
Qed.

Lemma main_loop_group categories other start factor maxsize fuel c r recs
    d w s0 w3 s1 w1 seen n :
  c ≠ currentChromosome d →
  switch_chromosome perform categories start factor maxsize fuel c
    (MkDriver (currentChromosome d) (summariser d) (processedChromosomes d)
       (linecount d + 1)) w
  = Ok (MkDriver c (Some s0) seen n) w3 →
  for_fold (λ s r, Add perform categories other fuel r.1 r.2 s) (r :: recs)
    s0 w3 = Ok s1 w1 →
  main_loop perform categories other start factor maxsize fuel
    (lines_of (c, r :: recs)) d w
  = Ok (MkDriver c (Some s1) seen (n + Z.of_nat (length recs))) w1.
Proof.
  intros Hne Hsw Hrun. cbn [for_fold] in Hrun.
  apply bind_Ok_inv in Hrun as (sa & wa & Hadd & Hrest).
  unfold main_loop, lines_of. cbn [fst snd]. rewrite fmap_cons.
  cbn [for_fold].
  rewrite (bind_Ok _ _ w (MkDriver c (Some sa) seen n) wa).
  - change (for_fold (step perform categories other start factor maxsize fuel)
              ?l ?d0)
      with (main_loop perform categories other start factor maxsize fuel l d0).
    rewrite main_loop_same_chromosome. by rewrite (bind_Ok _ _ _ _ _ Hrest).
  - unfold step.
    cbn [fst snd currentChromosome summariser processedChromosomes linecount].
    rewrite decide_False by done. rewrite (bind_Ok _ _ _ _ _ Hsw).
    cbn [currentChromosome summariser processedChromosomes linecount].
    by rewrite (bind_Ok _ _ _ _ _ Hadd).
Qed.

(** One more chromosome: the pyramid of the one before is finalised, its
    files and those of the earlier ones stay as they are, and the new
    pyramid takes its records. *)
Lemma group_step categories other start factor maxsize fuel hist g d w :
  1 ≤ start → 1 < factor → other_ok categories other →
  (Z.to_nat (maxsize - start + 1) < fuel)%nat →
  groups_inv perform categories other (sizes_upto fuel factor maxsize start)
    hist d w →
  NoDup (hist ++ [g]).*1 → (hist = [] → g.1 ≠ ""%string) →
  g.2 ≠ [] → Forall (λ r, 0 ≤ r.1 ∧ (Z.to_nat r.1 < fuel)%nat) g.2 →
  ∃ d' w',
    main_loop perform categories other start factor maxsize fuel (lines_of g)
      d w = Ok d' w'
    ∧ groups_inv perform categories other
        (sizes_upto fuel factor maxsize start) (hist ++ [g]) d' w'
    ∧ linecount d' = linecount d + Z.of_nat (length g.2).
Proof.
  intros Hs Hf Ho Hfuel (Hproc & Hnil & Hact) Hnd Hfirst Hne Hrecs.
  destruct g as [c recs]. simpl in *. destruct recs as [|r recs]; [done|].
  rewrite fmap_app in Hnd. simpl in Hnd.
  apply NoDup_app in Hnd as (Hndh & Hfresh & _).
  assert (Hc : c ∉ hist.*1).
  { intros Hin. apply (Hfresh c Hin). left. }
  set (sizes := sizes_upto fuel factor maxsize start) in *.
  assert (∃ w2,
            match summariser d with
            | Some s => bind (Finalise perform s) (λ _, ret ())
            | None => ret ()
            end w = Ok tt w2
            ∧ Forall (finished perform categories other sizes w2) hist
            ∧ c ≠ currentChromosome d) as (w2 & Hfin & Hdone & Hcur).
  { destruct hist as [|g0 earlier _] using rev_ind.
    - rewrite (Hnil eq_refl). exists w. repeat split; [constructor|].
      by apply Hfirst.
    - destruct (Hact earlier g0 eq_refl)
        as ((Hcur & s & Hsum & Hinv & Hsz) & Hearlier).
      destruct (Finalise_traced categories other outputdir g0.1 g0.2 sizes
                  s w Hinv Hsz) as (s' & w2 & Hfin & _ & Hout & Hfr).
      exists w2. rewrite Hsum, (bind_Ok _ _ _ _ _ Hfin).
      rewrite fmap_app in Hc, Hndh. simpl in Hc, Hndh.
      apply NoDup_app in Hndh as (_ & Hsep & _).
      repeat split.
      + apply Forall_app. split; [|by repeat constructor].
        apply Forall_forall. intros g' Hg' b Hb.
        rewrite Forall_forall in Hearlier.
        rewrite <- (Hearlier g' Hg' b Hb). apply Hfr. intros b' E.
        apply level_path_chrom in E.
        apply (Hsep g'.1); [by apply list_elem_of_fmap_2|].
        rewrite E. left.
      + rewrite Hcur. intros ->. apply Hc, elem_of_app. right. left. }
  destruct (init_then_records categories other fuel c outputdir start factor
              maxsize (r :: recs) w2 Hs Hf Ho Hrecs Hfuel)
    as (s0 & w0 & s1 & w1 & Hinit & Hrun & Hinv1 & Hsz1 & Hfr1).
  assert (Hnone : processedChromosomes d !! c = None).
  { apply eq_None_not_Some. by rewrite Hproc. }
  eexists _, w1. split; [|split].
  - eapply main_loop_group; [done| |exact Hrun].
    unfold switch_chromosome.
    cbn [currentChromosome summariser processedChromosomes linecount].
    rewrite (bind_Ok _ _ _ _ _ Hfin), (bind_Ok _ _ _ _ _ Hinit).
    rewrite Hnone, decide_False by (by intros []). done.
  - unfold groups_inv. split; [|split].
    + intros c'. simpl. rewrite fmap_app, elem_of_app. simpl.
      rewrite list_elem_of_singleton, <- Hproc.
      destruct (decide (c' = c)) as [->|Hc'].
      * rewrite lookup_insert_eq. split; [by right|by eexists].
      * rewrite lookup_insert_ne by done. split; [by left|by intros [?|?]].
    + intros E. by destruct hist.
    + intros earlier g' [<- <-]%app_inj_tail. split.
      * split; [done|]. exists s1.
        split; [done|]. split; [exact Hinv1|exact Hsz1].
      * apply Forall_forall. intros g' Hin b Hb.
        rewrite Forall_forall in Hdone.
        rewrite <- (Hdone g' Hin b Hb). apply Hfr1. intros b' E.
        apply level_path_chrom in E. apply Hc. rewrite <- E.
        by apply list_elem_of_fmap_2.
  - simpl. lia.
Qed.

Lemma groups_run categories other start factor maxsize fuel w0 :
  1 ≤ start → 1 < factor → other_ok categories other →
  (Z.to_nat (maxsize - start + 1) < fuel)%nat →
  ∀ groups,
    NoDup groups.*1 →
    (∀ g, head groups = Some g → g.1 ≠ ""%string) →
    Forall (λ g, g.2 ≠ []
                 ∧ Forall (λ r, 0 ≤ r.1 ∧ (Z.to_nat r.1 < fuel)%nat) g.2)
      groups →
    ∃ d w,
      main_loop perform categories other start factor maxsize fuel
        (concat (lines_of <$> groups)) driver0 w0 = Ok d w
      ∧ groups_inv perform categories other
          (sizes_upto fuel factor maxsize start) groups d w
      ∧ linecount d = Z.of_nat (length (concat (lines_of <$> groups))).
Proof.
  intros Hs Hf Ho Hfuel.
  induction groups as [|g groups IH] using rev_ind; intros Hnd Hhead Hall.
  - exists driver0, w0. split; [done|]. split; [|done].
    split; [|split; [done|]].
    + intros c. simpl. rewrite lookup_empty.
      split; [by intros []|by intros ?%elem_of_nil].
    + intros earlier g E. by destruct earlier.
  - apply Forall_app in Hall as [Hall [[Hne Hrecs] _]%Forall_cons].
    destruct IH as (d1 & w1 & H1 & Hinv1 & Hcount1); [| |done|].
    { rewrite fmap_app in Hnd. by apply NoDup_app in Hnd as (? & _). }
    { intros g' Hg'. apply Hhead. by destruct groups. }
    destruct (group_step categories other start factor maxsize fuel groups g
                d1 w1 Hs Hf Ho Hfuel Hinv1 Hnd) as (d2 & w2 & H2 & Hinv2 & Hc2);
      [|done|done|].
    { intros ->. by apply Hhead. }
    exists d2, w2. rewrite fmap_app, concat_app. simpl. rewrite app_nil_r.
    split; [|split; [done|]].
    + unfold main_loop in *. by rewrite for_fold_app, (bind_Ok _ _ _ _ _ H1).
    + rewrite Hc2, Hcount1, length_app. unfold lines_of at 3.
      rewrite length_fmap. lia.
Qed.

(** A chromosome on its own: [run_chromosome] returns, and the files are
    those of its levels taken one by one. *)
Lemma run_chromosome_output categories other fuel chrom folder start factor
    maxsize recs w :
  1 ≤ start → 1 < factor → other_ok categories other →
  Forall (λ r, 0 ≤ r.1 ∧ (Z.to_nat r.1 < fuel)%nat) recs →
  (Z.to_nat (maxsize - start + 1) < fuel)%nat →
  ∃ s w',
    run_chromosome perform categories other fuel chrom start factor maxsize
      folder recs w = Ok s w'
    ∧ Forall (λ l, blocksize l ∈ sizes_upto fuel factor maxsize start
                   ∧ path_of l = level_path folder chrom (blocksize l))
        (levels s)
    ∧ ∀ b, b ∈ sizes_upto fuel factor maxsize start →
        w' !! level_path folder chrom b
        = Some (level_output perform categories other folder chrom b recs).
Proof.
  intros Hs Hf Ho Hrecs Hfuel.
  destruct (init_then_records categories other fuel chrom folder start factor
              maxsize recs w Hs Hf Ho Hrecs Hfuel)
    as (s0 & w0 & s1 & w1 & Hinit & Hrun & Hinv1 & Hsz1 & _).
  destruct (Finalise_traced categories other folder chrom recs _ s1 w1
              Hinv1 Hsz1) as (s2 & w2 & Hfin & Hs2 & Hout & _).
  exists s2, w2. unfold run_chromosome.
  rewrite (bind_Ok _ _ _ _ _ Hinit), (bind_Ok _ _ _ _ _ Hrun).
  split; [done|]. split; [|done].
  rewrite Hs2. apply Forall_fmap, Forall_forall. intros l Hl.
  destruct Hinv1 as [_ Hall]. rewrite Forall_forall in Hall.
  destruct (Hall l Hl) as (_ & c & _ & Htr). simpl. split.
  - rewrite <- Hsz1. by apply list_elem_of_fmap_2.
  - change (path_of (finalised l)) with (path_of l).
    by eapply traced_path.
Qed.

(** X7: a data file grouped by chromosome, with positions from 0 on, goes
    through the whole script, every line counted, and each file of a
    chromosome ends up as it would with the records of that chromosome
    alone: the other chromosomes leave no trace in it. *)
Theorem chromosomes_independent (categories : list string)
    (other : option nat) (start factor maxsize : Z) (fuel : nat)
    (groups : list (string * list (Z * string))) w0 :
  1 ≤ start → 1 < factor → other_ok categories other →
  (Z.to_nat (maxsize - start + 1) < fuel)%nat →
  NoDup groups.*1 →
  (∀ g, head groups = Some g → g.1 ≠ ""%string) →
  Forall (λ g, g.2 ≠ []
               ∧ Forall (λ r, 0 ≤ r.1 ∧ (Z.to_nat r.1 < fuel)%nat) g.2)
    groups →
  ∃ d w,
    driver perform categories other start factor maxsize fuel
      (concat (lines_of <$> groups)) w0 = Ok d w
    ∧ linecount d = Z.of_nat (length (concat (lines_of <$> groups)))
    ∧ Forall
        (λ g, ∃ s wg,
           run_chromosome perform categories other fuel g.1 start factor
             maxsize outputdir g.2 ∅ = Ok s wg
           ∧ Forall (λ l, path_of l = level_path outputdir g.1 (blocksize l)
                          ∧ w !! path_of l = wg !! path_of l)
               (levels s))
        groups.
Proof.
  intros Hs Hf Ho Hfuel Hnd Hhead Hall.
  destruct (groups_run categories other start factor maxsize fuel w0
              Hs Hf Ho Hfuel groups Hnd Hhead Hall)
    as (d1 & w1 & H1 & (Hproc & Hnil & Hact) & Hcount).
  set (sizes := sizes_upto fuel factor maxsize start) in *.
  assert (∃ d w,
            driver perform categories other start factor maxsize fuel
              (concat (lines_of <$> groups)) w0 = Ok d w
            ∧ linecount d = linecount d1
            ∧ Forall (finished perform categories other sizes w) groups)
    as (d & w & Hd & Hlc & Hdone).
  { unfold driver. rewrite (bind_Ok _ _ _ _ _ H1).
    destruct groups as [|g earlier _] using rev_ind.
    - rewrite (Hnil eq_refl). by exists driver0, w1.
    - destruct (Hact earlier g eq_refl)
        as ((Hcur & s & Hsum & Hinv & Hsz) & Hearlier).
      destruct (Finalise_traced categories other outputdir g.1 g.2 sizes
                  s w1 Hinv Hsz) as (s' & w2 & Hfin & _ & Hout & Hfr).
      rewrite Hsum, (bind_Ok _ _ _ _ _ Hfin). eexists _, w2.
      split; [done|]. split; [done|].
      apply Forall_app. split; [|by repeat constructor].
      rewrite fmap_app in Hnd. simpl in Hnd.
      apply NoDup_app in Hnd as (_ & Hsep & _).
      apply Forall_forall. intros g' Hg' b Hb.
      rewrite Forall_forall in Hearlier.
      rewrite <- (Hearlier g' Hg' b Hb). apply Hfr. intros b' E.
      apply level_path_chrom in E.
      apply (Hsep g'.1); [by apply list_elem_of_fmap_2|]. rewrite E. left. }
  exists d, w. split; [done|]. split; [congruence|].
  apply Forall_forall. intros g Hg.
  rewrite Forall_forall in Hall, Hdone.
  destruct (Hall g Hg) as [_ Hrecs].
  destruct (run_chromosome_output categories other fuel g.1 outputdir start
              factor maxsize g.2 ∅ Hs Hf Ho Hrecs Hfuel)
    as (s & wg & Hrun & Hlev & Hout).
  exists s, wg. split; [done|].
  eapply Forall_impl; [exact Hlev|]. intros l [Hb Hp]. simpl.
  split; [done|]. rewrite Hp, (Hdone g Hg _ Hb). symmetry. by apply Hout.
Qed.

End Properties.

(** * Properties of DQXDbTools.py *)

(** ** Safe identifiers *)

Lemma remove_all_nil (l : list ascii) :
  foldl (λ st it, remove_char it st) EmptyString l = EmptyString.
Proof. by induction l. Qed.

Lemma remove_all_cons (l : list ascii) :
  ∀ a st,
    foldl (λ st it, remove_char it st) (String a st) l
    = if existsb (Ascii.eqb a) l
      then foldl (λ st it, remove_char it st) st l
      else String a (foldl (λ st it, remove_char it st) st l).
Proof.
  induction l as [|it l IH]; intros a st; simpl; [done|].
  destruct (Ascii.eqb a it); simpl; [done|]. apply IH.
Qed.

Lemma ToSafeIdentifier_cons a st :
  ToSafeIdentifier (String a st)
  = if safe_char a then String a (ToSafeIdentifier st)
    else ToSafeIdentifier st.
Proof.
  unfold ToSafeIdentifier, safe_char. rewrite remove_all_cons.
  by destruct (existsb (Ascii.eqb a) removelist).
Qed.

Lemma ToSafeIdentifier_keep st :
  ToSafeIdentifier st = keep_chars safe_char st.
Proof.
  induction st as [|a st IH]; [done|].
  rewrite ToSafeIdentifier_cons. simpl. by rewrite IH.
Qed.

Lemma occurs_keep_chars keep c st :
  keep c = false → occurs c (keep_chars keep st) = false.
Proof.
  intros Hc. induction st as [|a st IH]; simpl; [done|].
  destruct (keep a) eqn:E; [|done]. simpl. rewrite IH, orb_false_r.
  apply Ascii.eqb_neq. by intros ->; congruence.
Qed.

Lemma safe_char_removelist c : c ∈ removelist → safe_char c = false.
Proof.
  intros H. unfold safe_char. apply negb_false_iff, existsb_exists.
  exists c. split; [by apply list_elem_of_In|apply Ascii.eqb_refl].
Qed.

(** X8: [ToSafeIdentifier] drops every double quote, quote, semicolon,
    parenthesis and backtick and keeps all other characters in their
    order. *)
Theorem ToSafeIdentifier_removes (st : string) :
  ToSafeIdentifier st = keep_chars safe_char st
  ∧ ∀ c, c ∈ removelist → occurs c (ToSafeIdentifier st) = false.
Proof.
  split; [apply ToSafeIdentifier_keep|]. intros c Hc.
  rewrite ToSafeIdentifier_keep. by apply occurs_keep_chars, safe_char_removelist.
Qed.

Lemma keep_chars_app keep s1 s2 :
  keep_chars keep (s1 +:+ s2) = keep_chars keep s1 +:+ keep_chars keep s2.
Proof.
  induction s1 as [|a s1 IH]; [done|].
  change (String a s1 +:+ s2) with (String a (s1 +:+ s2)). simpl.
  rewrite IH. by destruct (keep a).
Qed.

Lemma keep_chars_idemp keep s :
  keep_chars keep (keep_chars keep s) = keep_chars keep s.
Proof.
  induction s as [|a s IH]; [done|]. simpl.
  destruct (keep a) eqn:E; [|done]. simpl. by rewrite E, IH.
Qed.

(** X9: escaping is idempotent: an identifier that went through
    [ToSafeIdentifier] or [DBCOLESC] comes out of a second pass as it is,
    and [ToSafeIdentifier] works piece by piece on a concatenation. *)
Theorem escaping_idempotent (st s1 s2 : string) :
  ToSafeIdentifier (ToSafeIdentifier st) = ToSafeIdentifier st
  ∧ DBCOLESC (DBCOLESC st) = DBCOLESC st
  ∧ ToSafeIdentifier (s1 +:+ s2) = ToSafeIdentifier s1 +:+ ToSafeIdentifier s2.
Proof.
  rewrite !ToSafeIdentifier_keep. split; [apply keep_chars_idemp|]. split.
  - unfold DBCOLESC. rewrite !ToSafeIdentifier_keep, !keep_chars_app.
    rewrite keep_chars_idemp.
    change (keep_chars safe_char "`") with EmptyString.
    change ("" +:+ ?x) with x.
    assert (E : ∀ s : string, s +:+ "" = s).
    { intros s. induction s as [|a s IH]; [done|].
      change (String a s +:+ "") with (String a (s +:+ "")). by rewrite IH. }
    by rewrite E.
  - apply keep_chars_app.
Qed.

(** ** Splitting and joining *)

Lemma py_split_cons sep s : ∃ h t, py_split sep s = h :: t.
Proof.
  induction s as [|a s (h & t & IH)]; simpl; [by eexists _, _|].
  destruct (Ascii.eqb a sep); [by eexists _, _|]. rewrite IH. by eexists _, _.
Qed.

Lemma py_split_length sep s :
  length (py_split sep s) = S (count_char sep s).
Proof.
  induction s as [|a s IH]; simpl; [done|].
  destruct (Ascii.eqb a sep); simpl; [by rewrite IH|].
  destruct (py_split_cons sep s) as (h & t & E). rewrite E in *.
  simpl in *. done.
Qed.

Lemma py_join_split sep s :
  py_join (String sep EmptyString) (py_split sep s) = s.
Proof.
  induction s as [|a s IH]; simpl; [done|].
  destruct (py_split_cons sep s) as (h & t & E). rewrite E in *.
  destruct (Ascii.eqb a sep) eqn:Ea.
  - apply Ascii.eqb_eq in Ea as ->.
    change (py_join (String sep "") ("" :: h :: t))
      with (String sep (py_join (String sep "") (h :: t))).
    by rewrite IH.
  - destruct t as [|h' t]; simpl in *; [by rewrite IH|].
    change (String a h +:+ ?x) with (String a (h +:+ x)). by rewrite IH.
Qed.

Lemma occurs_py_split c sep s x :
  x ∈ py_split sep s → occurs c x = true → occurs c s = true.
Proof.
  revert x. induction s as [|a s IH]; intros x; simpl.
  - by intros ->%list_elem_of_singleton.
  - destruct (py_split_cons sep s) as (h & t & E). rewrite E in *.
    destruct (Ascii.eqb a sep).
    + intros [->|Hx]%elem_of_cons; [done|]. intros Hc.
      rewrite (IH x Hx Hc). apply orb_true_r.
    + intros [->|Hx]%elem_of_cons; simpl.
      * intros [->| Hc]%orb_true_iff; [done|].
        rewrite (IH h); [apply orb_true_r|left|done].
      * intros Hc. rewrite (IH x); [apply orb_true_r|by right|done].
Qed.

Lemma slice_to_from n s : slice_to n s +:+ slice_from n s = s.
Proof.
  revert s. induction n as [|n IH]; intros [|a s]; simpl; try done.
  change (String a (slice_to n s) +:+ ?x) with (String a (slice_to n s +:+ x)).
  by rewrite IH.
Qed.

Lemma keep_chars_id s :
  (∀ c, c ∈ removelist → occurs c s = false) → keep_chars safe_char s = s.
Proof.
  induction s as [|a s IH]; intros H; simpl; [done|].
  destruct (safe_char a) eqn:E.
  - rewrite IH; [done|]. intros c Hc. specialize (H c Hc). simpl in H.
    by apply orb_false_iff in H as [_ ?].
  - apply negb_false_iff, existsb_exists in E as (c & Hc & E).
    apply Ascii.eqb_eq in E as <-. apply list_elem_of_In in Hc.
    specialize (H a Hc). simpl in H. by rewrite Ascii.eqb_refl in H.
Qed.

Lemma occurs_slice_from c n s :
  occurs c (slice_from n s) = true → occurs c s = true.
Proof.
  revert s. induction n as [|n IH]; intros [|a s]; simpl; try done.
  intros H. rewrite (IH s H). apply orb_true_r.
Qed.

(** X10: [ParseColumnEncoding] returns one column for each piece between
    the [~] of its argument, one more than there are [~], and no name has
    a character that [ToSafeIdentifier] removes. *)
Theorem ParseColumnEncoding_columns (columnstr : string) :
  length (ParseColumnEncoding columnstr) = S (count_char "~" columnstr)
  ∧ Forall (λ col, ∀ c, c ∈ removelist → occurs c (Name col) = false)
      (ParseColumnEncoding columnstr).
Proof.
  unfold ParseColumnEncoding. split.
  - by rewrite length_fmap, py_split_length.
  - apply Forall_fmap, Forall_forall. intros colstr _ c Hc. simpl.
    by apply ToSafeIdentifier_removes.
Qed.

(** X11: on a string without any of the removed characters,
    [ParseColumnEncoding] loses nothing: the encodings and names, put back
    together with [~], are the string. *)
Theorem ParseColumnEncoding_round_trip (columnstr : string) :
  (∀ c, c ∈ removelist → occurs c columnstr = false) →
  py_join "~" ((λ col, Encoding col +:+ Name col)
               <$> ParseColumnEncoding columnstr)
  = columnstr.
Proof.
  intros Hsafe. unfold ParseColumnEncoding.
  rewrite <- list_fmap_compose.
  rewrite (list_fmap_ext _ id (py_split "~" columnstr)).
  - rewrite list_fmap_id. apply (py_join_split "~"%char).
  - intros i colstr Hi. unfold compose. cbn [Encoding Name id].
    rewrite ToSafeIdentifier_keep, keep_chars_id; [apply slice_to_from|].
    intros c Hc. destruct (occurs c (slice_from 2 colstr)) eqn:E; [|done].
    apply occurs_slice_from in E.
    apply (occurs_py_split c "~"%char columnstr) in E;
      [|by eapply list_elem_of_lookup_2].
    by rewrite Hsafe in E.
Qed.

(** ** The order-by statement *)

Lemma occurs_py_join c sep l :
  occurs c sep = false → Forall (λ x, occurs c x = false) l →
  occurs c (py_join sep l) = false.
Proof.
  intros Hsep. induction l as [|x l IH]; intros H; [done|].
  apply Forall_cons in H as [Hx Hl]. destruct l as [|y l]; [done|].
  change (py_join sep (x :: y :: l)) with (x +:+ sep +:+ py_join sep (y :: l)).
  by rewrite !occurs_app, Hx, Hsep, IH.
Qed.

Lemma py_join_cons sep x y l :
  py_join sep (x :: y :: l) = x +:+ sep +:+ py_join sep (y :: l).
Proof. reflexivity. Qed.

Lemma CreateOrderByStatement_cases (orderstr : string) (reverse : bool) :
  (orderstr = ""%string ∨ orderstr = "null"%string)
  ∧ CreateOrderByStatement orderstr reverse = "NULL"%string
  ∨ ¬ (orderstr = ""%string ∨ orderstr = "null"%string)
    ∧ ∃ rest, CreateOrderByStatement orderstr reverse = String "`" rest.
Proof.
  unfold CreateOrderByStatement.
  destruct (String.length orderstr =? 0)%nat eqn:E1.
  { left. split; [|done]. left. destruct orderstr; [done|]. discriminate E1. }
  destruct (String.eqb orderstr "null") eqn:E2.
  { left. split; [|done]. right. by apply String.eqb_eq. }
  right. split.
  - intros [->| ->]; [discriminate E1|discriminate E2].
  - cbn [orb]. destruct (py_split_cons "~"%char orderstr) as (h & t & ->).
    rewrite fmap_cons. unfold DBCOLESC at 1.
    destruct t as [|h' t].
    + cbn [fmap list_fmap py_join].
      change (("`" +:+ ?x) +:+ ?y) with (String "`"%char (x +:+ y)).
      by eexists.
    + rewrite fmap_cons, py_join_cons.
      change ((("`" +:+ ?x) +:+ ?y) +:+ ?z)
        with (String "`"%char ((x +:+ y) +:+ z)).
      by eexists.
Qed.

(** X12: [CreateOrderByStatement] answers [NULL] for the empty string and
    for [null], and for nothing else: every other order string gives a
    statement that starts with a backtick. *)
Theorem CreateOrderByStatement_NULL (orderstr : string) (reverse : bool) :
  (CreateOrderByStatement orderstr reverse = "NULL"%string
   ↔ orderstr = ""%string ∨ orderstr = "null"%string)
  ∧ (¬ (orderstr = ""%string ∨ orderstr = "null"%string) →
     ∃ rest, CreateOrderByStatement orderstr reverse = String "`" rest).
Proof.
  destruct (CreateOrderByStatement_cases orderstr reverse)
    as [[Hs E]|[Hs [rest E]]].
  - split; [by split|]. by intros [].
  - split; [|by intros _; exists rest]. split; [|done].
    rewrite E. discriminate.
Qed.

(** X13: no double quote, quote, semicolon or parenthesis gets through
    [CreateOrderByStatement], whatever the encoded order string. *)
Theorem CreateOrderByStatement_safe (orderstr : string) (reverse : bool)
    (c : ascii) :
  c ∈ [ascii_of_nat 34; "'"; ";"; "("; ")"]%char →
  occurs c (CreateOrderByStatement orderstr reverse) = false.
Proof.
  intros Hc.
  assert (Hr : c ∈ removelist).
  { unfold removelist. rewrite !elem_of_cons in Hc. rewrite !elem_of_cons.
    tauto. }
  assert (Hlit : ∀ s, s ∈ ["NULL"; ", "; "`"; " DESC"; ""]%string →
                   occurs c s = false).
  { intros s Hs. rewrite !elem_of_cons, elem_of_nil in Hc.
    rewrite !elem_of_cons, elem_of_nil in Hs.
    destruct Hc as [->|[->|[->|[->|[->|[]]]]]];
      destruct Hs as [->|[->|[->|[->|[->|[]]]]]]; reflexivity. }
  unfold CreateOrderByStatement.
  destruct (_ || _); [apply Hlit; rewrite !elem_of_cons; tauto|].
  apply occurs_py_join; [apply Hlit; rewrite !elem_of_cons; tauto|].
  apply Forall_fmap, Forall_forall. intros field _. unfold compose. cbn beta.
  rewrite (occurs_app c (DBCOLESC field)). unfold DBCOLESC.
  rewrite (occurs_app c "`" (ToSafeIdentifier field +:+ "`")).
  rewrite (occurs_app c (ToSafeIdentifier field) "`").
  rewrite (proj2 (ToSafeIdentifier_removes field) c Hr).
  rewrite (Hlit "`"%string) by (rewrite !elem_of_cons; tauto).
  destruct reverse; apply Hlit; rewrite !elem_of_cons; tauto.
Qed.

(** ** Connection arguments *)

(** X14: the connection arguments always name the host and the character
    set; a password is passed only together with a user, and the defaults
    file is named exactly when [config] has no usable [DBUSER]. *)
Theorem CreateOpenDatabaseArguments_keys (config : db_config) :
  let args := CreateOpenDatabaseArguments config in
  args !! "host"%string = Some (DBSRV config)
  ∧ args !! "charset"%string = Some "utf8"%string
  ∧ (is_Some (args !! "passwd"%string) → is_Some (args !! "user"%string))
  ∧ (is_Some (args !! "read_default_file"%string) ↔ DBUSER config = None)
  ∧ (is_Some (args !! "user"%string)
     ↔ ∃ user, DBUSER config = Some user ∧ user ≠ ""%string).
Proof.
  unfold CreateOpenDatabaseArguments.
  destruct config as [srv [[|a user]|] [[|b pass]|]]; simpl;
    repeat split; intros; simplify_map_eq;
    try done; try (by eexists); try (by destruct H as [? ?]);
    try (by destruct H as (? & [= <-] & ?)); try (by eexists; split).
Qed.

(** ** Credentials *)

(** X15: [VerifyCanDo] returns exactly when [CanDo] says yes; when it does
    not, the message of its exception is the reason of the verifier
    followed by the operation in brackets. *)
Theorem VerifyCanDo_CanDo
    (verifier : option (CredentialInformation → DbOperation → DbAuthorization))
    (self : CredentialInformation) (operation : DbOperation) :
  (VerifyCanDo verifier self operation = inr tt
   ↔ CanDo verifier self operation = true)
  ∧ ∀ e, VerifyCanDo verifier self operation = inl e →
      ∃ v, verifier = Some v
           ∧ e = CredentialDatabaseException
                   (reason (v self operation) +:+ " " +:+ LF +:+ LF +:+ "["
                    +:+ DbOperation_str operation +:+ "]").
Proof.
  unfold VerifyCanDo, CanDo. destruct verifier as [v|]; [|by split].
  destruct (IsGranted (v self operation)); simpl.
  - by split.
  - split; [by split|]. intros e [= <-]. by exists v.
Qed.

(** X16: a request that runs locally is accepted without a look at its
    environment and makes the user [local]; the client address stays
    unset, so [GetAuthenticationInfo] on the result is a [TypeError]. *)
Theorem local_request (data : requestData) :
  isRunningLocal data = Some true →
  ∃ cred,
    ParseCredentialInfo data = inr cred
    ∧ userid cred = "local"%string
    ∧ groupids cred = []
    ∧ GetAuthenticationInfo cred = inl DbTypeError.
Proof.
  intros H. unfold ParseCredentialInfo, ParseFromReturnData.
  rewrite bool_decide_true by done. by eexists.
Qed.

Lemma count_char_split (a : ascii) (s : string) :
  count_char a s = O → py_split a s = [s].
Proof.
  induction s as [|b s IH]; simpl; [done|].
  destruct (Ascii.eqb b a); [done|]. intros H. by rewrite IH.
Qed.

Lemma count_char_lstrip a chars s :
  count_char a s = O → count_char a (py_lstrip chars s) = O.
Proof.
  induction s as [|b s IH]; simpl; [done|].
  destruct (existsb (Ascii.eqb b) chars); [|done].
  intros H. apply IH. lia.
Qed.

Lemma count_char_rstrip a chars s :
  count_char a s = O → count_char a (py_rstrip chars s) = O.
Proof.
  induction s as [|b s IH]; simpl; [done|]. intros H.
  assert (count_char a (py_rstrip chars s) = O) as Hs by (apply IH; lia).
  destruct (Ascii.eqb b a) eqn:E; [lia|].
  destruct (py_rstrip chars s).
  - destruct (existsb (Ascii.eqb b) chars); simpl; by rewrite ?E.
  - simpl in *. by rewrite E.
Qed.

Lemma count_char_strip a chars s :
  count_char a s = O → count_char a (py_strip chars s) = O.
Proof. intros H. by apply count_char_rstrip, count_char_lstrip. Qed.

Lemma count_char_piece a sep s x :
  x ∈ py_split sep s → count_char a s = O → count_char a x = O.
Proof.
  revert x. induction s as [|b s IH]; intros x; simpl.
  - by intros ->%list_elem_of_singleton.
  - destruct (py_split_cons sep s) as (h & t & E). rewrite E in *.
    intros Hx H0.
    assert (count_char a s = O) as Hs by lia.
    destruct (Ascii.eqb b sep).
    + apply elem_of_cons in Hx as [->|Hx]; [done|]. by apply IH.
    + apply elem_of_cons in Hx as [->|Hx].
      * simpl. rewrite (IH h); [lia|left|done].
      * apply IH; [by right|done].
Qed.

(** X17: a [HTTP_CAS_MEMBEROF] header without any [=], the empty header
    among them, makes [ParseFromReturnData] fail with [IndexError] at its
    first token. *)
Theorem cas_header_without_equals (self : CredentialInformation)
    (data : requestData) (env : gmap string string) (header : string) :
  isRunningLocal data ≠ Some true →
  environ data = Some env →
  env !! "HTTP_CAS_MEMBEROF"%string = Some header →
  count_char "=" header = O →
  ParseFromReturnData self data = inl DbIndexError.
Proof.
  intros Hloc Henv Hcas Heq. unfold ParseFromReturnData.
  rewrite bool_decide_false, Henv, Hcas by done.
  set (cas := py_strip ["["; "]"]%char header).
  assert (Hcas0 : count_char "=" cas = O) by by apply count_char_strip.
  destruct (py_split_cons ";"%char cas) as (g & gs & Eg). rewrite Eg.
  assert (Hg : count_char "=" g = O).
  { apply (count_char_piece _ ";"%char cas); [rewrite Eg; left|done]. }
  cbn [parse_groups].
  set (g' := py_strip [" "%char] g).
  assert (Hg' : count_char "=" g' = O) by by apply count_char_strip.
  destruct (py_split_cons ","%char g') as (t & ts & Et). rewrite Et.
  assert (Ht : count_char "=" t = O).
  { apply (count_char_piece _ ","%char g'); [rewrite Et; left|done]. }
  cbn [parse_tokens].
  rewrite (count_char_split "="%char (py_strip [" "%char] t));
    [done|by apply count_char_strip].
Qed.

Lemma parse_groups_length (groups : list string) :
  ∀ ids ids',
    parse_groups groups ids = inr ids' →
    length ids' = (length ids + length groups)%nat.
Proof.
  induction groups as [|g groups IH]; intros ids ids'; simpl.
  - intros [= <-]. lia.
  - destruct (parse_tokens _ []) as [e|path]; [done|].
    intros H%IH. rewrite length_app in H. simpl in H. lia.
Qed.

(** X18: when [ParseFromReturnData] accepts a request with a
    [HTTP_CAS_MEMBEROF] header, it has added one group for each part
    between the [;] of the header, brackets stripped, and taken address and
    user from the environment where they are given. *)
Theorem cas_header_groups (self : CredentialInformation)
    (data : requestData) (env : gmap string string) (header : string)
    (cred : CredentialInformation) :
  isRunningLocal data ≠ Some true →
  environ data = Some env →
  env !! "HTTP_CAS_MEMBEROF"%string = Some header →
  ParseFromReturnData self data = inr cred →
  length (groupids cred)
  = (length (groupids self)
     + S (count_char ";" (py_strip ["["; "]"]%char header)))%nat
  ∧ clientaddress cred
    = match env !! "REMOTE_ADDR"%string with
      | Some a => Some a
      | None => clientaddress self
      end
  ∧ userid cred = default (userid self) (env !! "REMOTE_USER"%string).
Proof.
  intros Hloc Henv Hcas. unfold ParseFromReturnData.
  rewrite bool_decide_false, Henv, Hcas by done.
  destruct (parse_groups _ (groupids self)) as [e|ids] eqn:E; [done|].
  intros [= <-]. simpl. apply parse_groups_length in E.
  rewrite py_split_length in E. split; [done|]. split; [done|].
  by destruct (env !! "REMOTE_USER"%string).
Qed.

(** * Concrete runs, with the [plain] encoder *)

(** C2, as stated, fails: one record at position 10 and a level of width 10
    give two blocks (block 0 without records, block 1 with the record),
    not [ceil_div 10 10 = 1]. *)
Lemma cadence_ceil_fails :
  ¬ (∀ (categories : list string) (other : option nat) (fuel : nat)
       (chrom folder : string) (start factor maxsize : Z)
       (recs : list (Z * string)) (p : Z) (v : string)
       (w : gmap string (list (list Z))) s w',
       1 ≤ start → 1 < factor → other_ok categories other →
       StronglySorted Z.lt (fst <$> recs) →
       Forall (λ r, 1 ≤ r.1) recs →
       last recs = Some (p, v) →
       run_chromosome plain categories other fuel chrom start factor maxsize
         folder recs w = Ok s w' →
       Forall (λ l, ∃ c, w' !! path_of l = Some c
                         ∧ Z.of_nat (length c) = ceil_div p (blocksize l))
         (levels s)).
Proof.
  intros H.
  assert (∃ s w' l,
            run_chromosome plain ["A"; "B"]%string None 5 "chr1" 10 2 10
              outputdir [(10, "A")]%string ∅ = Ok s w'
            ∧ levels s = [l]
            ∧ blocksize l = 10
            ∧ w' !! path_of l = Some [[0; 0]; [1; 0]])
    as (s & w' & l & E & Hl & Hbs & Hw).
  { eexists _, _, _. split; [by vm_compute|]. split; [done|]. by vm_compute. }
  specialize (H ["A"; "B"]%string None 5%nat "chr1"%string outputdir 10 2 10
                [(10, "A")]%string 10 "A"%string ∅ s w'
                ltac:(lia) ltac:(lia) ltac:(by intros k)
                ltac:(repeat constructor)
                ltac:(repeat constructor; simpl; lia)
                eq_refl E).
  rewrite Hl in H. apply Forall_cons in H as [(c & Hc & Hlen) _].
  rewrite Hw in Hc. injection Hc as <-. rewrite Hbs in Hlen.
  by vm_compute in Hlen.
Qed.

Lemma cadence_blocks_witness :
  ∃ s w',
    run_chromosome plain ["A"; "B"]%string None 30 "chr1" 10 2 20 outputdir
      [(1, "A"); (5, "B"); (25, "A")]%string ∅ = Ok s w'
    ∧ Forall
        (λ l, path_of l = level_path outputdir "chr1" (blocksize l)
              ∧ w' !! path_of l
                = Some ((λ i, plain (block_counts ["A"; "B"]%string None
                                       (blocksize l) i
                                       [(1, "A"); (5, "B"); (25, "A")]%string))
                        <$> seq 0 (S (Z.to_nat (25 / blocksize l)))))
        (levels s)
    ∧ ∀ bs i,
        Forall (λ r, in_block bs i r.1 = false)
          [(1, "A"); (5, "B"); (25, "A")]%string →
        block_counts ["A"; "B"]%string None bs i
          [(1, "A"); (5, "B"); (25, "A")]%string
        = replicate (length ["A"; "B"]%string) 0.
Proof.
  apply (cadence_blocks plain ["A"; "B"]%string None 30 "chr1" outputdir
           10 2 20 [(1, "A"); (5, "B"); (25, "A")]%string 25 "A"%string ∅).
  - lia.
  - lia.
  - intros k Hk. discriminate Hk.
  - repeat constructor.
  - repeat constructor; simpl; lia.
  - reflexivity.
  - simpl. lia.
  - simpl. lia.
Defined.

(** C3, as stated, fails: after the lines of [chr1] and [chr2] the file of
    [chr1] holds its block; the second [chr1] line opens that file again,
    and at the error it is empty. *)
Lemma blocks_lost_on_repeat :
  ¬ (∀ (categories : list string) (other : option nat)
       (start factor maxsize : Z) (fuel : nat)
       (lines pre post : list record) (g : string)
       (blocks : list (list Z)) d w1 e w,
       lines = pre ++ post →
       main_loop plain categories other start factor maxsize fuel pre
         driver0 ∅ = Ok d w1 →
       w1 !! g = Some blocks →
       driver plain categories other start factor maxsize fuel lines ∅
       = Raise e w →
       ∃ more, w !! g = Some (blocks ++ more)).
Proof.
  intros H.
  set (pre := [("chr1", 1, "A"); ("chr2", 1, "A")]%string : list record).
  set (post := [("chr1", 2, "A")]%string : list record).
  assert (∃ d w1,
            main_loop plain ["A"; "B"]%string None 10 2 10 5 pre driver0 ∅
            = Ok d w1
            ∧ w1 !! "./Summaries/Summ_chr1_10"%string = Some [[1; 0]])
    as (d & w1 & E1 & Hw1).
  { eexists _, _. split; by vm_compute. }
  assert (∃ e w,
            driver plain ["A"; "B"]%string None 10 2 10 5 (pre ++ post) ∅
            = Raise e w
            ∧ w !! "./Summaries/Summ_chr1_10"%string = Some [])
    as (e & w & E2 & Hw).
  { eexists _, _. split; by vm_compute. }
  destruct (H _ _ _ _ _ _ _ pre post _ _ d w1 e w eq_refl E1 Hw1 E2)
    as [more Hm].
  rewrite Hw in Hm. discriminate Hm.
Qed.

(** An error raised by [Add] ends the script with the active pyramid as it
    is: the counts of the record at 1 are in no file. *)
Example unfinalised_on_position_error :
  ∃ w,
    driver plain ["A"; "B"]%string None 10 2 10 5
      [("chr1", 1, "A"); ("chr1", -5, "A")]%string ∅
    = Raise (Exception "Positions should be strictly ordered") w
    ∧ w !! "./Summaries/Summ_chr1_10"%string = Some [].
Proof. eexists. by vm_compute. Qed.

Lemma finalised_before_repeat_error_witness :
  ∃ d w1,
    main_loop plain ["A"; "B"]%string None 10 2 10 5
      [("chr1", 1, "A"); ("chr2", 1, "A")]%string driver0 ∅ = Ok d w1
    ∧ ∃ s s' w2 w3,
        summariser d = Some s
        ∧ chromosome s = "chr2"%string
        ∧ Finalise plain s w1 = Ok s' w2
        ∧ driver plain ["A"; "B"]%string None 10 2 10 5
            ([("chr1", 1, "A"); ("chr2", 1, "A")]%string
             ++ ("chr1", 2, "A")%string :: []) ∅
          = Raise (Exception "File should be ordered by chromosome") w3
        ∧ (∀ c b, c ≠ "chr1"%string →
             w3 !! level_path outputdir c b = w2 !! level_path outputdir c b)
        ∧ (∀ c b blocks,
             c ≠ "chr1"%string →
             w1 !! level_path outputdir c b = Some blocks →
             ∃ more, w3 !! level_path outputdir c b = Some (blocks ++ more)).
Proof.
  destruct (main_loop plain ["A"; "B"]%string None 10 2 10 5
              [("chr1", 1, "A"); ("chr2", 1, "A")]%string driver0 ∅)
    as [d w1| |] eqn:E; [|vm_compute in E; discriminate E..].
  exists d, w1. split; [reflexivity|].
  apply (finalised_before_repeat_error plain ["A"; "B"]%string None 10 2 10 5
           [("chr1", 1, "A"); ("chr2", 1, "A")]%string
           ("chr2", 1, "A")%string ("chr1", 2, "A")%string [] d ∅ w1 E).
  - reflexivity.
  - discriminate.
  - simpl. left.
Defined.

Lemma counts_conserved_witness :
  ∃ s w',
    run_chromosome plain ["A"; "B"]%string None 30 "chr1" 10 2 20 outputdir
      [(1, "A"); (25, "B"); (7, "A")]%string ∅ = Ok s w'
    ∧ Forall (λ l, path_of l = level_path outputdir "chr1" (blocksize l)
                   ∧ ∃ c, w' !! path_of l = Some c
                          ∧ sum_blocks (id <$> c) = Z.of_nat 3)
        (levels s).
Proof.
  apply (counts_conserved plain ["A"; "B"]%string None 30 "chr1" outputdir
           10 2 20 [(1, "A"); (25, "B"); (7, "A")]%string id ∅).
  - lia.
  - lia.
  - intros k Hk. discriminate Hk.
  - reflexivity.
  - repeat constructor; simpl; try lia; eexists; vm_compute; reflexivity.
  - simpl. lia.
  - repeat constructor; simpl; lia.
Defined.

Example levels_10_2_40 :
  ∃ s w',
    init (encoded:=list Z) [] 4 "chr1" 10 2 40 outputdir ∅ = Ok s w'
    ∧ blocksize <$> levels s = [10; 20; 40].
Proof. eexists _, _. by vm_compute. Qed.

Lemma init_levels_geometric_witness :
  ∃ s (w' : gmap string (list (list Z))) n,
    init ["A"; "B"]%string 40 "chr1" 10 2 40 outputdir ∅ = Ok s w'
    ∧ blocksize <$> levels s = (λ i : nat, 10 * 2 ^ Z.of_nat i) <$> seq 0 n
    ∧ (∀ i : nat, (i < n)%nat → 10 * 2 ^ Z.of_nat i ≤ 40)
    ∧ 40 < 10 * 2 ^ Z.of_nat n
    ∧ StronglySorted Z.lt (blocksize <$> levels s)
    ∧ levels s = fresh_level ["A"; "B"]%string outputdir "chr1"
                   <$> (blocksize <$> levels s).
Proof.
  apply (init_levels_geometric (encoded:=list Z) ["A"; "B"]%string 40 "chr1"
           outputdir 10 2 40 ∅).
  - lia.
  - lia.
  - simpl. lia.
Defined.

Lemma repeated_chromosome_raises_witness :
  ∃ d w1,
    main_loop plain ["A"; "B"]%string None 10 2 10 5
      [("chr1", 1, "A"); ("chr2", 1, "A")]%string driver0 ∅ = Ok d w1
    ∧ ∃ w,
        main_loop plain ["A"; "B"]%string None 10 2 10 5
          ([("chr1", 1, "A"); ("chr2", 1, "A")]%string
           ++ [("chr1", 2, "A")%string]) driver0 ∅
        = Raise (Exception "File should be ordered by chromosome") w
        ∧ driver plain ["A"; "B"]%string None 10 2 10 5
            ([("chr1", 1, "A"); ("chr2", 1, "A")]%string
             ++ ("chr1", 2, "A")%string :: [("chr1", 3, "B")%string]) ∅
          = Raise (Exception "File should be ordered by chromosome") w.
Proof.
  destruct (main_loop plain ["A"; "B"]%string None 10 2 10 5
              [("chr1", 1, "A"); ("chr2", 1, "A")]%string driver0 ∅)
    as [d w1| |] eqn:E; [|vm_compute in E; discriminate E..].
  exists d, w1. split; [reflexivity|].
  apply (repeated_chromosome_raises plain ["A"; "B"]%string None 10 2 10 5
           [("chr1", 1, "A"); ("chr2", 1, "A")]%string
           ("chr2", 1, "A")%string ("chr1", 2, "A")%string
           [("chr1", 3, "B")%string] d ∅ w1 E).
  - reflexivity.
  - discriminate.
  - simpl. left.
Defined.



(** C9, as stated, fails: with start 10, factor -2 and maximum 100 the
    block sizes are 10, -20, 40, -80, 160 and the loop returns. *)
Lemma negative_factor_terminates :
  ¬ (∀ (categories : list string) (chrom folder : string)
       (start factor maxsize : Z) (w : gmap string (list (list Z))),
       1 ≤ start → factor ≤ 1 →
       ∀ fuel, init categories fuel chrom start factor maxsize folder w
               = OutOfFuel).
Proof.
  intros H.
  specialize (H [] "chr1"%string outputdir 10 (-2) 100 ∅
                ltac:(lia) ltac:(lia) 5%nat).
  vm_compute in H. discriminate H.
Qed.

Lemma init_terminates_or_loops_witness :
  (∃ s (w' : gmap string (list (list Z))),
     init [] 40 "chr1" 10 2 40 outputdir ∅ = Ok s w')
  ∧ (∀ fuel,
       init (encoded:=list Z) [] fuel "chr1" 10 1 40 outputdir ∅ = OutOfFuel).
Proof.
  split.
  - apply (proj1 (init_terminates_or_loops (encoded:=list Z) [] "chr1"
                    outputdir 10 2 40 ∅ ltac:(lia))).
    + lia.
    + simpl. lia.
  - apply (proj2 (init_terminates_or_loops (encoded:=list Z) [] "chr1"
                    outputdir 10 1 40 ∅ ltac:(lia))).
    + lia.
    + lia.
Defined.

(** ** Runs of the further properties of the converter *)

Lemma Finalise_once_witness :
  let l := MkLevel 10 10 [1; 2] (File "./Summaries/Summ_chr1_10" false) in
  let s := MkSummariser "chr1" outputdir (-1) 10 2 10 [l] in
  ∃ s' w',
    Finalise plain s ∅ = Ok s' w'
    ∧ Forall (λ l, closed (outputfile l) = true) (levels s')
    ∧ (levels s ≠ [] → Finalise plain s' w' = Raise ValueError w').
Proof.
  intros l s.
  destruct (Finalise plain s ∅) as [s' w'| |] eqn:E;
    [|vm_compute in E; discriminate E..].
  exists s', w'. split; [reflexivity|].
  apply (Finalise_once plain s ∅ s' w' E).
Defined.

Lemma negative_factor_never_returns_witness :
  other_ok ["A"; "B"]%string None
  ∧ ∀ fuel,
      run_chromosome plain ["A"; "B"]%string None fuel "chr1" 10 (-2) 100
        outputdir [(1, "A")]%string ∅ = OutOfFuel.
Proof.
  assert (H : other_ok ["A"; "B"]%string None).
  { intros k Hk. discriminate Hk. }
  split; [exact H|].
  apply (negative_factor_never_returns plain ["A"; "B"]%string None "chr1"
           outputdir 10 (-2) 100 1 "A"%string [] ∅).
  - lia.
  - lia.
  - lia.
  - exact H.
  - lia.
Defined.

Lemma position_error_only_negative_witness :
  ∃ w,
    driver plain ["A"; "B"]%string None 10 2 10 5
      [("chr1", 1, "A"); ("chr1", -5, "A")]%string ∅
    = Raise (Exception "Positions should be strictly ordered") w
    ∧ Exists (λ line : record, line.1.2 ≤ -1)
        [("chr1", 1, "A"); ("chr1", -5, "A")]%string.
Proof.
  eexists. split; [vm_compute; reflexivity|].
  eapply (position_error_only_negative plain ["A"; "B"]%string None 10 2 10 5
            [("chr1", 1, "A"); ("chr1", -5, "A")]%string ∅).
  vm_compute. reflexivity.
Defined.

Lemma blocks_well_shaped_witness :
  ∃ s w',
    run_chromosome plain ["A"; "B"]%string None 30 "chr1" 10 2 20 outputdir
      [(1, "A"); (25, "B"); (7, "A")]%string ∅ = Ok s w'
    ∧ Forall (λ l, ∃ blocks,
                 w' !! path_of l = Some (plain <$> blocks)
                 ∧ blocks ≠ []
                 ∧ Forall (counts_ok ["A"; "B"]%string) blocks)
        (levels s).
Proof.
  apply (blocks_well_shaped plain ["A"; "B"]%string None 30 "chr1" outputdir
           10 2 20 [(1, "A"); (25, "B"); (7, "A")]%string ∅).
  - lia.
  - lia.
  - intros k Hk. discriminate Hk.
  - repeat constructor; simpl; lia.
  - simpl. lia.
  - repeat constructor; simpl; lia.
Defined.

Lemma chromosomes_independent_witness :
  let groups :=
    [("chr1", [(1, "A"); (25, "B")]); ("chr2", [(3, "A")])]%string in
  ∃ d w,
    driver plain ["A"; "B"]%string None 10 2 20 30
      (concat (lines_of <$> groups)) ∅ = Ok d w
    ∧ linecount d = Z.of_nat (length (concat (lines_of <$> groups)))
    ∧ Forall
        (λ g, ∃ s wg,
           run_chromosome plain ["A"; "B"]%string None 30 g.1 10 2 20
             outputdir g.2 ∅ = Ok s wg
           ∧ Forall (λ l, path_of l = level_path outputdir g.1 (blocksize l)
                          ∧ w !! path_of l = wg !! path_of l)
               (levels s))
        groups.
Proof.
  intros groups.
  apply (chromosomes_independent plain ["A"; "B"]%string None 10 2 20 30
           groups ∅).
  - lia.
  - lia.
  - intros k Hk. discriminate Hk.
  - simpl. lia.
  - apply (bool_decide_unpack _). vm_compute. reflexivity.
  - intros g Hg. injection Hg as <-. discriminate.
  - repeat constructor; simpl; (discriminate || lia).
Defined.

(** ** Runs of the properties of DQXDbTools.py *)

Lemma ParseColumnEncoding_round_trip_witness :
  (∀ c, c ∈ removelist → occurs c "ISpos~STname" = false)
  ∧ py_join "~" ((λ col, Encoding col +:+ Name col)
                 <$> ParseColumnEncoding "ISpos~STname")
    = "ISpos~STname"%string.
Proof.
  assert (H : ∀ c, c ∈ removelist → occurs c "ISpos~STname" = false).
  { intros c Hc. unfold removelist in Hc.
    rewrite !elem_of_cons, elem_of_nil in Hc.
    destruct Hc as [->|[->|[->|[->|[->|[->|[]]]]]]]; reflexivity. }
  split; [exact H|].
  apply (ParseColumnEncoding_round_trip "ISpos~STname" H).
Defined.

Lemma CreateOrderByStatement_NULL_witness :
  ¬ ("pos~name" = "" ∨ "pos~name" = "null")%string
  ∧ ∃ rest, CreateOrderByStatement "pos~name" true = String "`" rest.
Proof.
  assert (H : ¬ ("pos~name" = "" ∨ "pos~name" = "null")%string).
  { intros [H|H]; discriminate H. }
  split; [exact H|].
  apply (proj2 (CreateOrderByStatement_NULL "pos~name" true) H).
Defined.

Lemma CreateOrderByStatement_safe_witness :
  (";" ∈ [ascii_of_nat 34; "'"; ";"; "("; ")"])%char
  ∧ occurs ";" (CreateOrderByStatement "pos;drop~name" true) = false.
Proof.
  assert (H : (";" ∈ [ascii_of_nat 34; "'"; ";"; "("; ")"])%char).
  { rewrite !elem_of_cons. right. right. left. reflexivity. }
  split; [exact H|].
  apply (CreateOrderByStatement_safe "pos;drop~name" true ";"%char H).
Defined.

Lemma local_request_witness :
  ∃ cred,
    ParseCredentialInfo (MkRequestData (Some true) None) = inr cred
    ∧ userid cred = "local"%string
    ∧ groupids cred = []
    ∧ GetAuthenticationInfo cred = inl DbTypeError.
Proof.
  apply (local_request (MkRequestData (Some true) None)). reflexivity.
Defined.

Lemma cas_header_without_equals_witness :
  ParseFromReturnData CredentialInformation_init
    (MkRequestData None (Some (<["HTTP_CAS_MEMBEROF" := "[]"]> ∅))%string)
  = inl DbIndexError.
Proof.
  apply (cas_header_without_equals CredentialInformation_init
           (MkRequestData None (Some (<["HTTP_CAS_MEMBEROF" := "[]"]> ∅)))
           (<["HTTP_CAS_MEMBEROF" := "[]"]> ∅) "[]")%string.
  - discriminate.
  - reflexivity.
  - vm_compute. reflexivity.
  - reflexivity.
Defined.

Lemma cas_header_groups_witness :
  let header := "[cn=staff,ou=people,dc=org;cn=admin,x=y]"%string in
  let env : gmap string string :=
    <["HTTP_CAS_MEMBEROF" := header]> (<["REMOTE_USER" := "ann"]> ∅)%string in
  let data := MkRequestData (Some false) (Some env) in
  ∃ cred,
    ParseFromReturnData CredentialInformation_init data = inr cred
    ∧ groupids cred = ["staff.people.org"; "admin"]%string
    ∧ length (groupids cred)
      = (length (groupids CredentialInformation_init)
         + S (count_char ";" (py_strip ["["; "]"]%char header)))%nat
    ∧ clientaddress cred
      = match env !! "REMOTE_ADDR"%string with
        | Some a => Some a
        | None => clientaddress CredentialInformation_init
        end
    ∧ userid cred
      = default (userid CredentialInformation_init)
          (env !! "REMOTE_USER"%string).
Proof.
  intros header env data.
  destruct (ParseFromReturnData CredentialInformation_init data)
    as [e|cred] eqn:E; [vm_compute in E; discriminate E|].
  exists cred. split; [reflexivity|]. split.
  { vm_compute in E. injection E as <-. reflexivity. }
  apply (cas_header_groups CredentialInformation_init data env header cred).
  - discriminate.
  - reflexivity.
  - vm_compute. reflexivity.
  - exact E.
Defined.
